(** * scoreKeeper: the score ledger, its derived views and its persistence

    A shallow embedding of the React score keeper.  The repository holds the
    same application in two flavours, and the development follows both:

    - the _modular_ flavour, [src/App.tsx] with [components/ScoreTable.tsx]
      (typed, no persistence, scores read with [parseInt]);
    - the _single-file_ flavour (the two self-contained [App] files, one of
      them with the statistics view), with [localStorage] persistence, the
      line chart, and scores read with [parseFloat].

    React state is modelled by explicit state passing: every handler is the
    updater function it hands to [setPlayers], a function from the previous
    [players] array to the next one.  Clock readings ([Date.now()],
    [new Date().getTime()]) are inputs of the handlers that read the clock.
    A [window.confirm] dialog that is dismissed leaves the state alone, so a
    handler below is the confirmed action.

    Numbers.  A score held by the ledger is modelled as an integer ([Z]):
    that is what the modular flavour can enter, and on integers below 2^53
    JavaScript arithmetic is exact.  Fractions, which the single-file flavour
    admits, and the rounding of doubles are outside the ledger model.  The
    text-to-number step of the score cells is modelled separately
    (module [ScoreEntry]) with a number type that has NaN, the infinities and
    exact decimal values. *)

From Stdlib Require Import ZArith List Bool Ascii String Lia.
From Stdlib Require Import Permutation Sorted QArith.
From Stdlib Require Import DecimalString DecimalZ DecimalPos DecimalN.
Import ListNotations.

#[local] Open Scope string_scope.
#[local] Open Scope list_scope.
#[local] Open Scope Z_scope.

(* ================================================================= *)
(** * Part I: the model *)
(* ================================================================= *)

(** ** The two flavours of the application *)

Inductive flavour : Set :=
| Modular      (* src/App.tsx + components/ScoreTable.tsx *)
| SingleFile.  (* the self-contained App files *)

(** ** JavaScript built-ins used by the code *)

Module JS.

(** [Number.prototype.toString] on an integer: its decimal digits, with a
    leading minus sign for a negative one. *)
Definition toString (n : Z) : string :=
  NilEmpty.string_of_int (Z.to_int n).

(** [Array(n).fill(v)] *)
Definition Array_fill {A} (n : nat) (v : A) : list A := repeat v n.

(** [a.filter((x, i) => f(x, i))]: the callback also sees the index. *)
Fixpoint filter_from {A} (f : A -> nat -> bool) (i : nat) (a : list A) : list A :=
  match a with
  | [] => []
  | x :: a' => if f x i then x :: filter_from f (S i) a' else filter_from f (S i) a'
  end.

Definition filteri {A} (f : A -> nat -> bool) (a : list A) : list A :=
  filter_from f 0 a.

(** [a[i] = v] on a copy of [a].  An index inside the array replaces the
    element.  An index at or past the end makes JavaScript extend the array;
    the holes it leaves in between are represented by [hole] (the ledger
    passes the absent score; the table never writes past the end, and no
    property below depends on such a write).  A negative index only sets a
    property named by the index and leaves the elements alone. *)
Fixpoint set_nth {A} (hole : A) (i : nat) (v : A) (a : list A) : list A :=
  match i, a with
  | O, [] => [v]
  | O, _ :: a' => v :: a'
  | S i', [] => hole :: set_nth hole i' v []
  | S i', x :: a' => x :: set_nth hole i' v a'
  end.

Definition Array_set {A} (hole : A) (i : Z) (v : A) (a : list A) : list A :=
  if i <? 0 then a else set_nth hole (Z.to_nat i) v a.

(** [a.sort(compare)].  ECMAScript requires the sort to be stable, and for a
    comparator that is a consistent ordering the result does not depend on
    the engine's algorithm; it is modelled by a stable insertion sort.  An
    element [x] that stood before [y] stays before it unless
    [compare(x, y) > 0]. *)
Fixpoint sort_insert {A} (compare : A -> A -> Z) (x : A) (a : list A) : list A :=
  match a with
  | [] => [x]
  | y :: a' =>
      if compare x y <=? 0 then x :: y :: a' else y :: sort_insert compare x a'
  end.

Definition Array_sort {A} (compare : A -> A -> Z) (a : list A) : list A :=
  fold_right (sort_insert compare) [] a.

(** [Math.max(x, ...xs)] on a non-empty argument list. *)
Definition Math_max (x : Z) (xs : list Z) : Z := fold_left Z.max xs x.

End JS.

(** ** The data model ([types.ts]) *)

(** A score slot is [number | null]; [None] is [null], the absent score. *)
Definition Score := option Z.

Record Player : Set := mkPlayer {
  id : string;
  name : string;
  scores : list Score
}.

Definition set_name (p : Player) (newName : string) : Player :=
  {| id := id p; name := newName; scores := scores p |}.

Definition set_scores (p : Player) (newScores : list Score) : Player :=
  {| id := id p; name := name p; scores := newScores |}.

(** ** Totals *)

(** [score || 0]: [null] and [0] are falsy and give the right operand. *)
Definition or_zero (s : Score) : Z :=
  match s with
  | Some n => if n =? 0 then 0 else n
  | None => 0
  end.

(** [p.scores.reduce((sum, score) => sum + (score || 0), 0)], the expression
    every view uses for a player's total: the comparator of [sortedPlayers],
    the table rows, [getTotal] of the statistics view and the spreadsheet
    rows. *)
Definition total (p : Player) : Z :=
  fold_left (fun sum s => sum + or_zero s) (scores p) 0.

(** [playerTotals] of [ScoreTable.tsx]: one [{id, total}] entry per player. *)
Definition playerTotals (players : list Player) : list (string * Z) :=
  map (fun player => (id player, total player)) players.

(** [playerTotals.find(p => p.id === player.id)?.total ?? 0] *)
Definition find_total (totals : list (string * Z)) (player : Player) : Z :=
  match find (fun e => String.eqb (fst e) (id player)) totals with
  | Some e => snd e
  | None => 0
  end.

(** ** The ledger handlers *)

(** [numRounds]: the length of the first player's scores, 5 without players. *)
Definition numRounds (players : list Player) : nat :=
  match players with
  | [] => 5
  | p :: _ => List.length (scores p)
  end.

Definition handleAddPlayer (now : Z) (prevPlayers : list Player) : list Player :=
  let rounds := numRounds prevPlayers in
  let newPlayer :=
    {| id := JS.toString now;
       name := String.append "Player " (JS.toString (Z.of_nat (List.length prevPlayers) + 1));
       scores := JS.Array_fill rounds None |} in
  prevPlayers ++ [newPlayer].

Definition handleRemovePlayer (i : string) (prevPlayers : list Player) : list Player :=
  filter (fun p => negb (String.eqb (id p) i)) prevPlayers.

Definition handleNameChange (i newName : string) (prevPlayers : list Player)
  : list Player :=
  map (fun p => if String.eqb (id p) i then set_name p newName else p) prevPlayers.

Definition handleScoreChange (i : string) (roundIndex : Z) (s : Score)
  (prevPlayers : list Player) : list Player :=
  map (fun p =>
         if String.eqb (id p) i
         then set_scores p (JS.Array_set None roundIndex s (scores p))
         else p)
      prevPlayers.

(** The handler of the modular flavour alerts and returns when there is no
    player; the single-file one creates "Player 1" with five empty slots. *)
Definition handleAddRound (f : flavour) (now : Z) (players : list Player)
  : list Player :=
  if (List.length players =? 0)%nat then
    match f with
    | Modular => players
    | SingleFile =>
        [ {| id := JS.toString now;
             name := "Player 1";
             scores := JS.Array_fill 5 None |} ]
    end
  else map (fun p => set_scores p (scores p ++ [None])) players.

Definition handleRemoveRound (roundIndex : Z) (prevPlayers : list Player)
  : list Player :=
  map (fun p =>
         set_scores p
           (JS.filteri (fun _ i => negb (Z.of_nat i =? roundIndex)) (scores p)))
      prevPlayers.

(** The user's actions on the ledger, and the transition each one causes. *)
Inductive event : Set :=
| AddPlayer (now : Z)
| RemovePlayer (i : string)
| NameChange (i newName : string)
| ScoreChange (i : string) (roundIndex : Z) (s : Score)
| AddRound (now : Z)
| RemoveRound (roundIndex : Z)
| NewGame
| ClearRecords.

Definition step (f : flavour) (players : list Player) (e : event) : list Player :=
  match e with
  | AddPlayer now => handleAddPlayer now players
  | RemovePlayer i => handleRemovePlayer i players
  | NameChange i newName => handleNameChange i newName players
  | ScoreChange i roundIndex s => handleScoreChange i roundIndex s players
  | AddRound now => handleAddRound f now players
  | RemoveRound roundIndex => handleRemoveRound roundIndex players
  | NewGame => []
  | ClearRecords => []
  end.

Definition run (f : flavour) (players : list Player) (es : list event)
  : list Player :=
  fold_left (step f) es players.

(** ** Derived views *)

(** [sortedPlayers]: a copy of [players] sorted with the comparator
    [(a, b) => totalB - totalA]. *)
Definition compareTotals (a b : Player) : Z :=
  let totalA := total a in
  let totalB := total b in
  totalB - totalA.

Definition sortedPlayers (players : list Player) : list Player :=
  JS.Array_sort compareTotals players.

(** [highestScore] of [ScoreTable.tsx] *)
Definition highestScore (players : list Player) : Z :=
  match map snd (playerTotals players) with
  | [] => -1
  | t :: allTotals => JS.Math_max t allTotals
  end.

(** [isWinner] for the row of [player], which sits at position [index] of the
    [players] the table was given.  The modular table looks the total up by
    id and compares it with the highest one; the single-file tables flag the
    first row only. *)
Definition isWinner (f : flavour) (players : list Player) (index : nat)
  (player : Player) : bool :=
  match f with
  | Modular =>
      let totalScore := find_total (playerTotals players) player in
      (0 <? totalScore) && (totalScore =? highestScore players)
  | SingleFile =>
      let totalScore := total player in
      (index =? 0)%nat && (0 <? totalScore)
  end.

(** The winner flags of the table as the application renders it: the table
    is given [sortedPlayers]. *)
Definition winnerFlags (f : flavour) (players : list Player) : list (Player * bool) :=
  let rows := sortedPlayers players in
  map (fun ip => (snd ip, isWinner f rows (fst ip) (snd ip)))
      (combine (seq 0 (List.length rows)) rows).

(** [totalScore], the total a table row shows for [player], where [players]
    is what the table was given: the modular table finds it by id among
    [playerTotals], the single-file tables reduce the row's own scores. *)
Definition totalScore (f : flavour) (players : list Player) (player : Player) : Z :=
  match f with
  | Modular => find_total (playerTotals players) player
  | SingleFile => total player
  end.

(** A point of the line chart, [{ round, score }]. *)
Record Point : Set := mkPoint { round : Z; score : Z }.

(** The [forEach] of [ScoreLineChart]: [acc] is [(runningTotal, points)] and
    [rIdx] the index of the slot [s] being visited. *)
Definition pushPoint (acc : Z * list Point) (rIdx : nat) (s : Score)
  : Z * list Point :=
  match s with
  | Some v =>
      let runningTotal := fst acc + v in
      (runningTotal, snd acc ++ [mkPoint (Z.of_nat rIdx + 1) runningTotal])
  | None => acc
  end.

Fixpoint forEach_from {A B} (f : B -> nat -> A -> B) (i : nat) (a : list A) (acc : B) : B :=
  match a with
  | [] => acc
  | x :: a' => forEach_from f (S i) a' (f acc i x)
  end.

Definition chartPoints (p : Player) : list Point :=
  snd (forEach_from pushPoint 0 (scores p) (0, [mkPoint 0 0])).

(** ** Persistence ([localStorage] under [STORAGE_KEY]) *)

Definition EXPIRY_TIME : Z := 10 * 60 * 60 * 1000.

(** The record the save effect writes: [{ players, gameTitle, timestamp }]. *)
Record SavedData : Set := mkSavedData {
  players : list Player;
  gameTitle : string;
  timestamp : Z
}.

Section Persistence.

(** The JSON codec is a built-in of the platform.  The model takes it as a
    parameter: [Text] is what the store holds, [JSON_parse] gives [None]
    where [JSON.parse] throws, and [truthy] is the test of [if (saved)]. *)
Variable Text : Type.
Variable JSON_stringify : SavedData -> Text.
Variable JSON_parse : Text -> option SavedData.
Variable truthy : Text -> bool.

(** The store is the item under [STORAGE_KEY]: [None] when there is none. *)
Definition Storage : Type := option Text.

(** The save effect, run with the clock reading [now]. *)
Definition saveEffect (now : Z) (ps : list Player) (title : string)
  (store : Storage) : Storage :=
  let data := {| players := ps; gameTitle := title; timestamp := now |} in
  Some (JSON_stringify data).

(** [loadSavedData], run with the clock reading [now]: the value returned
    ([None] is [null]) and the store it leaves. *)
Definition loadSavedData (now : Z) (store : Storage) : option SavedData * Storage :=
  match store with
  | Some saved =>
      if truthy saved then
        match JSON_parse saved with
        | Some parsed =>
            if now - timestamp parsed <? EXPIRY_TIME
            then (Some parsed, store)
            else (None, None)          (* removeItem *)
        | None => (None, store)        (* caught and logged *)
        end
      else (None, store)
  | None => (None, store)
  end.

(** [handleClearRecords] on the store *)
Definition clearRecords (store : Storage) : Storage := None.

End Persistence.

(** The state the application starts from:
    [initialData?.players || []] and [initialData?.gameTitle || "Score Keeper"]
    (an empty title is falsy). *)
Definition initialPlayers (initialData : option SavedData) : list Player :=
  match initialData with
  | Some d => players d
  | None => []
  end.

Definition initialTitle (initialData : option SavedData) : string :=
  match initialData with
  | Some d => if String.eqb (gameTitle d) "" then "Score Keeper" else gameTitle d
  | None => "Score Keeper"
  end.

(** ** From the text of a score cell to the value handed to [onScoreChange] *)

Module ScoreEntry.

(** A JavaScript number as far as the parsers need it: NaN, an infinity, or
    a finite value, kept as the exact rational the text denotes (the
    rounding to a double is not modelled). *)
Inductive number : Set :=
| NaN
| Infinity (negative : bool)
| Finite (q : Q).

Definition isNaN (n : number) : bool :=
  match n with
  | NaN => true
  | _ => false
  end.

(** The white space [TrimString] removes, among the code units below 256
    (a character of a Rocq string stands for one such code unit): TAB, LF,
    VT, FF, CR, SP and NBSP. *)
Definition isWhiteSpace (c : ascii) : bool :=
  match N_of_ascii c with
  | 9 | 10 | 11 | 12 | 13 | 32 | 160 => true
  | _ => false
  end%N.

Fixpoint trimStart (s : string) : string :=
  match s with
  | String c s' => if isWhiteSpace c then trimStart s' else s
  | EmptyString => s
  end.

Definition digitValue (c : ascii) : option N :=
  let code := N_of_ascii c in
  if (48 <=? code)%N && (code <=? 57)%N then Some (code - 48)%N else None.

(** Reads the longest run of decimal digits at the head of [s]: the value
    read so far, the number of digits read so far, and what follows. *)
Fixpoint readDigits (s : string) (acc : N) (count : nat) : N * nat * string :=
  match s with
  | String c s' =>
      match digitValue c with
      | Some d => readDigits s' (acc * 10 + d)%N (S count)
      | None => (acc, count, s)
      end
  | EmptyString => (acc, count, s)
  end.

(** An optional sign at the head of [s]: whether it is a minus, and the rest. *)
Definition readSign (s : string) : bool * string :=
  match s with
  | String "-" s' => (true, s')
  | String "+" s' => (false, s')
  | _ => (false, s)
  end%char.

Definition signed (negative : bool) (m : N) : Z :=
  if negative then - Z.of_N m else Z.of_N m.

(** [parseInt(s, 10)]: white space, an optional sign, then the longest run of
    decimal digits; NaN when there is no digit. *)
Definition parseInt (s : string) : number :=
  let '(negative, s1) := readSign (trimStart s) in
  let '(mathInt, count, _) := readDigits s1 0%N 0%nat in
  if (count =? 0)%nat then NaN else Finite (inject_Z (signed negative mathInt)).

(** The value [m * 10^e], with its sign. *)
Definition decimal (negative : bool) (m : N) (e : Z) : Q :=
  if 0 <=? e then (signed negative m * 10 ^ e) # 1
  else signed negative m # Z.to_pos (10 ^ (- e)).

(** An exponent part at the head of [s], if there is a complete one: [e] or
    [E], an optional sign, at least one digit. *)
Definition readExponent (s : string) : Z :=
  match s with
  | String c s' =>
      if Ascii.eqb c "e" || Ascii.eqb c "E" then
        let '(negative, s1) := readSign s' in
        let '(e, count, _) := readDigits s1 0%N 0%nat in
        if (count =? 0)%nat then 0 else signed negative e
      else 0
  | EmptyString => 0
  end%char.

(** [parseFloat(s)]: white space, then the longest prefix that is a
    [StrDecimalLiteral]; NaN when there is none. *)
Definition parseFloat (s : string) : number :=
  let '(negative, s1) := readSign (trimStart s) in
  if String.prefix "Infinity" s1 then Infinity negative else
  let '(int, intCount, s2) := readDigits s1 0%N 0%nat in
  let '(mantissa, fracCount, s3) :=
    match s2 with
    | String "." s2' =>
        let '(m, count, s3) := readDigits s2' int 0%nat in
        if (intCount + count =? 0)%nat then (m, count, s2) else (m, count, s3)
    | _ => (int, 0%nat, s2)
    end%char in
  if (intCount + fracCount =? 0)%nat then NaN
  else Finite (decimal negative mantissa (readExponent s3 - Z.of_nat fracCount)).

(** The [onChange] handler of a score cell, as the value it passes to
    [onScoreChange] for the text [value] of the input: [None] is [null].
    The modular table reads with [parseInt] and replaces NaN by [null]; the
    single-file tables replace the empty text by [null] and otherwise pass
    what [parseFloat] returns. *)
Definition onChange (f : flavour) (value : string) : option number :=
  match f with
  | Modular =>
      let score := parseInt value in
      if isNaN score then None else Some score
  | SingleFile =>
      if String.eqb value "" then None else Some (parseFloat value)
  end.

End ScoreEntry.

(** ** The spreadsheet export ([handleDownloadExcel]) *)

(** A cell of the sheet: a text (the empty text for an absent score) or a
    number. *)
Inductive Cell : Set :=
| TextCell (s : string)
| NumberCell (n : Z).

(** [headers]: "Player", one "Round i" per round, "Total Score". *)
Definition excelHeaders (rounds : nat) : list string :=
  "Player"
  :: map (fun i => String.append "Round " (JS.toString (Z.of_nat i + 1)))
         (seq 0 rounds)
  ++ ["Total Score"].

(** [[player.name, ...player.scores.map((s) => s ?? ""), total]] *)
Definition excelCells (player : Player) : list Cell :=
  TextCell (name player)
  :: map (fun s => match s with Some v => NumberCell v | None => TextCell "" end)
         (scores player)
  ++ [NumberCell (total player)].

(** [worksheetData]: the header row, then one row per player in ranking
    order. *)
Definition worksheetData (players : list Player) : list (list Cell) :=
  map TextCell (excelHeaders (numRounds players))
  :: map excelCells (sortedPlayers players).

(** [s.padStart(2, "0")] *)
Definition padStart2 (s : string) : string :=
  match String.length s with
  | O => "00"
  | S O => String "0" s
  | _ => s
  end.

(** The date of the file name, from [getDate()], [getMonth()] and
    [getFullYear()] of the current date: day, month and year joined by
    hyphens, day and month padded to two digits. *)
Definition dateString (date monthIndex fullYear : Z) : string :=
  let day := padStart2 (JS.toString date) in
  let month := padStart2 (JS.toString (monthIndex + 1)) in
  let year := JS.toString fullYear in
  String.append day (String.append "-" (String.append month (String.append "-" year))).

(** The class [[a-z0-9]] of the regular expression, matched without regard to
    case: the ASCII letters and digits. *)
Definition isAlphaNumeric (c : ascii) : bool :=
  let code := N_of_ascii c in
  ((48 <=? code) && (code <=? 57) || (65 <=? code) && (code <=? 90)
   || (97 <=? code) && (code <=? 122))%N.

(** [toLowerCase] on one code unit below 256: the capital letters of ASCII
    and of Latin-1 move to their small letters. *)
Definition toLowerCaseChar (c : ascii) : ascii :=
  let code := N_of_ascii c in
  if ((65 <=? code) && (code <=? 90)
      || (192 <=? code) && (code <=? 222) && negb (code =? 215))%N
  then ascii_of_N (code + 32) else c.

Fixpoint mapString (g : ascii -> ascii) (s : string) : string :=
  match s with
  | EmptyString => EmptyString
  | String c s' => String (g c) (mapString g s')
  end.

(** [gameTitle.replace(/[^a-z0-9]/gi, "_").toLowerCase()] *)
Definition safeTitle (title : string) : string :=
  mapString toLowerCaseChar
    (mapString (fun c => if isAlphaNumeric c then c else "_"%char) title).

(** The name of the file written: the modular flavour uses a fixed stem, the
    single-file flavour the sanitized title. *)
Definition excelFileName (f : flavour) (title : string) (date monthIndex fullYear : Z)
  : string :=
  match f with
  | Modular =>
      String.append "Final_Scores_"
        (String.append (dateString date monthIndex fullYear) ".xlsx")
  | SingleFile =>
      String.append (safeTitle title)
        (String.append "_"
           (String.append (dateString date monthIndex fullYear) ".xlsx"))
  end.

(** What a call of [handleDownloadExcel] ends in. *)
Inductive Export : Set :=
| NothingToExport                 (* no player: it returns at once *)
| LibraryAlert                    (* single-file: the alert that the library is loading *)
| ReferenceError                  (* modular: the global [XLSX] is not defined *)
| Written (fileName : string) (sheet : list (list Cell)).

(** [handleDownloadExcel], where [xlsxDefined] tells whether the global
    [XLSX] exists.  Without players it returns at once.  Without the global
    the single-file flavour alerts and returns, and the modular flavour,
    which has no such test, fails at [XLSX.utils.aoa_to_sheet]; nothing is
    written either way.  Otherwise the sheet is written under the file
    name. *)
Definition handleDownloadExcel (f : flavour) (xlsxDefined : bool)
  (ps : list Player) (title : string) (date monthIndex fullYear : Z) : Export :=
  if (List.length ps =? 0)%nat then NothingToExport
  else if xlsxDefined
       then Written (excelFileName f title date monthIndex fullYear)
                    (worksheetData ps)
       else match f with
            | SingleFile => LibraryAlert
            | Modular => ReferenceError
            end.

(** ** The line chart ([ScoreLineChart]) *)

Definition PLAYER_COLORS : list string :=
  ["#fbbf24"; "#38bdf8"; "#f87171"; "#34d399";
   "#a78bfa"; "#f472b6"; "#fb923c"; "#94a3b8"].

(** One line of the chart: [{ id, name, color, points }]. *)
Record Line : Set := mkLine {
  lineId : string;
  lineName : string;
  color : string;
  points : list Point
}.

(** [data]: one line per player, coloured by the player's position in the
    [players] the chart is given. *)
Definition chartData (ps : list Player) : list Line :=
  map (fun ip =>
         mkLine (id (snd ip)) (name (snd ip))
           (nth (fst ip mod List.length PLAYER_COLORS) PLAYER_COLORS "")
           (chartPoints (snd ip)))
      (combine (seq 0 (List.length ps)) ps).

Definition allPoints (ps : list Player) : list Point :=
  flat_map points (chartData ps).

(** [Math.min(x, ...xs)] *)
Definition Math_min (x : Z) (xs : list Z) : Z := fold_left Z.min xs x.

(** The scales of the chart, [(maxRound, minScore, maxScore)]; [None] when
    there is no point and the chart shows "Not enough data". *)
Definition chartScales (ps : list Player) : option (Z * Z * Z) :=
  match map round (allPoints ps) with
  | [] => None
  | r :: rounds =>
      Some (JS.Math_max r rounds,
            Math_min 0 (map score (allPoints ps)),
            JS.Math_max 10 (map score (allPoints ps)))
  end.

(** A line is drawn unless it has fewer than two points. *)
Definition lineDrawn (l : Line) : bool :=
  negb (List.length (points l) <? 2)%nat.

(** ** The statistics view ([StatsView]) *)

(** [maxTotal]: the total of the first player of the ranking, 100 without
    players. *)
Definition maxTotal (ps : list Player) : Z :=
  match sortedPlayers ps with
  | [] => 100
  | p :: _ => total p
  end.

(** [player.scores.filter((s) => s !== null).length] *)
Definition roundsPlayed (p : Player) : nat :=
  List.length (filter (fun s => match s with Some _ => true | None => false end)
                 (scores p)).

(** [percent], the width of a player's bar, as an exact rational. *)
Definition percent (ps : list Player) (p : Player) : Q :=
  if 0 <? maxTotal ps
  then (inject_Z (total p) / inject_Z (maxTotal ps)) * inject_Z 100
  else 0%Q.

(** ** Starting the application *)

Section Startup.

Variable Text : Type.
Variable JSON_stringify : SavedData -> Text.
Variable JSON_parse : Text -> option SavedData.
Variable truthy : Text -> bool.

(** The single-file [App] when it mounts: the initial state is read from the
    store at clock reading [now], and the save effect of the first render
    writes that state back at clock reading [later]. *)
Definition startApp (now later : Z) (store : Storage Text)
  : list Player * string * Storage Text :=
  let initialData := fst (loadSavedData Text JSON_parse truthy now store) in
  let store1 := snd (loadSavedData Text JSON_parse truthy now store) in
  let ps := initialPlayers initialData in
  let title := initialTitle initialData in
  (ps, title, saveEffect Text JSON_stringify later ps title store1).

End Startup.

(** ** Further notions of the properties *)

(** The events that keep the round-count invariant: all of them, a score
    edit provided it names a round of the ledger. *)
Definition keepsRounds (ps : list Player) (e : event) : Prop :=
  match e with
  | ScoreChange _ roundIndex _ => 0 <= roundIndex < Z.of_nat (numRounds ps)
  | _ => True
  end.

Fixpoint allKeepRounds (f : flavour) (ps : list Player) (es : list event) : Prop :=
  match es with
  | [] => True
  | e :: es' => keepsRounds ps e /\ allKeepRounds f (step f ps e) es'
  end.

(** The characters a file name is made of here: small letters, digits,
    underscore, hyphen and dot. *)
Definition isFileNameChar (c : ascii) : bool :=
  let code := N_of_ascii c in
  ((48 <=? code) && (code <=? 57) || (97 <=? code) && (code <=? 122)
   || (code =? 95) || (code =? 45) || (code =? 46))%N.

Fixpoint allChars (g : ascii -> bool) (s : string) : bool :=
  match s with
  | EmptyString => true
  | String c s' => g c && allChars g s'
  end.

(** The rounds of a list of points increase strictly. *)
Definition increasingRounds (pts : list Point) : Prop :=
  StronglySorted (fun a b => round a < round b) pts.

(** ** Notions of the specification *)

(** The present scores of a sequence of slots, in order, and their sum. *)
Definition presentScores (l : list Score) : list Z :=
  flat_map (fun s => match s with Some v => [v] | None => [] end) l.

Definition sumZ (l : list Z) : Z := fold_right Z.add 0 l.

(** I1: every player's scores have the length of the round count. *)
Definition aligned (ps : list Player) : Prop :=
  forall p, In p ps -> List.length (scores p) = numRounds ps.

(** The sequences of [addPlayer], [addRound] and [removeRound] in which every
    [removeRound] names a round of the ledger it is applied to. *)
Fixpoint roundEvents (f : flavour) (ps : list Player) (es : list event) : Prop :=
  match es with
  | [] => True
  | e :: es' =>
      match e with
      | AddPlayer _ | AddRound _ => True
      | RemoveRound roundIndex => 0 <= roundIndex < Z.of_nat (numRounds ps)
      | _ => False
      end /\ roundEvents f (step f ps e) es'
  end.

(** The progression the specification describes: the start point, then for
    every round [r] with a present score the round number [r + 1] and the sum
    of the present scores of rounds [0..r]. *)
Definition progression (l : list Score) : list Point :=
  mkPoint 0 0 ::
  flat_map (fun r =>
              match nth r l None with
              | Some _ => [mkPoint (Z.of_nat r + 1) (sumZ (presentScores (firstn (S r) l)))]
              | None => []
              end)
           (seq 0 (List.length l)).

(** [a] stands before [b] in [l]. *)
Definition precedes {A} (l : list A) (a b : A) : Prop :=
  exists l1 l2 l3, l = l1 ++ a :: l2 ++ b :: l3.

(** The players of [ps] whose total is [t], in the order they have in [ps]. *)
Definition withTotal (t : Z) (ps : list Player) : list Player :=
  filter (fun p => total p =? t) ps.

(** ** Auxiliary functions of the proofs *)

(** The number of slots left by [removeRound] depends on the number of slots
    only. *)
Definition slotsAfterRemove (roundIndex : Z) (from n : nat) : nat :=
  if (Z.of_nat from <=? roundIndex) && (roundIndex <? Z.of_nat (from + n))
  then pred n else n.

(** The points a player's line gets from slot [from] on, when [acc] is the
    running total so far. *)
Definition pointsFrom (from : nat) (acc : Z) (l : list Score) : list Point :=
  flat_map (fun r =>
              match nth r l None with
              | Some _ =>
                  [mkPoint (Z.of_nat (from + r) + 1)
                           (acc + sumZ (presentScores (firstn (S r) l)))]
              | None => []
              end)
           (seq 0 (List.length l)).

(** Whether a text begins with a decimal digit. *)
Definition startsWithDigit (s : string) : bool :=
  match s with
  | String c _ => match ScoreEntry.digitValue c with Some _ => true | None => false end
  | EmptyString => false
  end.

(** The clock readings of the events that may create a player, in order. *)
Fixpoint clockReadings (es : list event) : list Z :=
  match es with
  | [] => []
  | AddPlayer now :: es' => now :: clockReadings es'
  | AddRound now :: es' => now :: clockReadings es'
  | _ :: es' => clockReadings es'
  end.

(** The ids handed out by the [addPlayer] events, in order. *)
Fixpoint assignedIds (es : list event) : list string :=
  match es with
  | [] => []
  | AddPlayer now :: es' => JS.toString now :: assignedIds es'
  | _ :: es' => assignedIds es'
  end.

(* ================================================================= *)
(** * Part II: properties *)
(* ================================================================= *)

(** ** Totals *)

Lemma or_zero_present (v : Z) : or_zero (Some v) = v.
Proof.
  unfold or_zero. destruct (Z.eqb_spec v 0); congruence.
Qed.

Lemma reduce_total (l : list Score) (sum : Z) :
  fold_left (fun sum s => sum + or_zero s) l sum = sum + sumZ (presentScores l).
Proof.
  revert sum. induction l as [|s l IH]; intros sum; simpl.
  - lia.
  - rewrite IH. destruct s as [v|].
    + rewrite or_zero_present. simpl. lia.
    + simpl. lia.
Qed.

Lemma total_sum (p : Player) : total p = sumZ (presentScores (scores p)).
Proof.
  unfold total. rewrite reduce_total. lia.
Qed.

Lemma presentScores_app (l1 l2 : list Score) :
  presentScores (l1 ++ l2) = presentScores l1 ++ presentScores l2.
Proof.
  unfold presentScores. apply flat_map_app.
Qed.

(** ** The round-count invariant *)

Lemma filter_from_length (roundIndex : Z) (l : list Score) (from : nat) :
  List.length (JS.filter_from (fun _ i => negb (Z.of_nat i =? roundIndex)) from l)
  = slotsAfterRemove roundIndex from (List.length l).
Proof.
  revert from. induction l as [|s l IH]; intros from.
  - unfold slotsAfterRemove. cbn [JS.filter_from List.length].
    now destruct (_ && _).
  - cbn [JS.filter_from List.length].
    assert (IH' := IH (S from)). unfold slotsAfterRemove in *.
    destruct (Z.eqb_spec (Z.of_nat from) roundIndex) as [E|E];
      cbn [negb List.length]; rewrite IH';
      destruct (Z.leb_spec (Z.of_nat (S from)) roundIndex);
      destruct (Z.leb_spec (Z.of_nat from) roundIndex);
      destruct (Z.ltb_spec roundIndex (Z.of_nat (S from + List.length l)));
      destruct (Z.ltb_spec roundIndex (Z.of_nat (from + S (List.length l))));
      cbn [andb]; lia.
Qed.

Lemma aligned_map (g : Player -> Player) (h : nat -> nat) (ps : list Player) :
  (forall p, List.length (scores (g p)) = h (List.length (scores p))) ->
  aligned ps -> aligned (map g ps).
Proof.
  intros Hg Hps q Hq. apply in_map_iff in Hq as (p & <- & Hp).
  destruct ps as [|p0 ps']; [contradiction|].
  simpl numRounds. rewrite !Hg. f_equal.
  rewrite (Hps p Hp). symmetry. apply (Hps p0). now left.
Qed.

Lemma aligned_nil : aligned [].
Proof. intros p []. Qed.

Lemma numRounds_app (ps qs : list Player) :
  ps <> [] -> numRounds (ps ++ qs) = numRounds ps.
Proof. destruct ps; [congruence | reflexivity]. Qed.

Lemma aligned_handleAddPlayer (now : Z) (ps : list Player) :
  aligned ps -> aligned (handleAddPlayer now ps).
Proof.
  intros Hps. unfold handleAddPlayer.
  destruct ps as [|p0 ps'].
  - intros q [<-|[]]. reflexivity.
  - intros q Hq. rewrite numRounds_app by discriminate.
    apply in_app_or in Hq as [Hq|[<-|[]]]; [now apply Hps|].
    simpl scores. unfold JS.Array_fill. now rewrite repeat_length.
Qed.

Lemma aligned_handleAddRound (f : flavour) (now : Z) (ps : list Player) :
  aligned ps -> aligned (handleAddRound f now ps).
Proof.
  intros Hps. unfold handleAddRound.
  destruct ps as [|p0 ps']; simpl Nat.eqb; cbv iota.
  - destruct f; [exact aligned_nil|]. intros q [<-|[]]. reflexivity.
  - apply (aligned_map _ S); [|exact Hps].
    intros p. simpl. rewrite length_app. simpl. lia.
Qed.

Lemma aligned_handleRemoveRound (roundIndex : Z) (ps : list Player) :
  aligned ps -> aligned (handleRemoveRound roundIndex ps).
Proof.
  apply (aligned_map _ (slotsAfterRemove roundIndex 0)).
  intros p. simpl. apply filter_from_length.
Qed.

Create HintDb ledger.

#[local] Hint Resolve aligned_nil aligned_handleAddPlayer aligned_handleAddRound
  aligned_handleRemoveRound : ledger.

(** C2.  From a ledger whose players all have as many slots as the round
    count, every sequence of [addPlayer], [addRound] and in-range
    [removeRound] leads to such a ledger again: any two players have scores
    of the same length, which is the round count. *)
Theorem round_count_invariant (f : flavour) (es : list event) (ps : list Player) :
  aligned ps ->
  roundEvents f ps es ->
  (forall p q, In p (run f ps es) -> In q (run f ps es) ->
               List.length (scores p) = List.length (scores q)) /\
  (forall p, In p (run f ps es) ->
             List.length (scores p) = numRounds (run f ps es)).
Proof.
  intros Hps Hes.
  assert (H : aligned (run f ps es)).
  { revert ps Hps Hes. induction es as [|e es IH]; intros ps Hps Hes.
    - exact Hps.
    - destruct Hes as [He Hes]. simpl. apply IH; [|exact Hes].
      destruct e; simpl; try contradiction; auto with ledger. }
  split; [|exact H].
  intros p q Hp Hq. now rewrite (H p Hp), (H q Hq).
Qed.

Lemma round_count_invariant_witness :
  List.length (run SingleFile []
                 [AddRound 1000; AddPlayer 1001; AddRound 1002; RemoveRound 5;
                  RemoveRound 0]) = 2%nat /\
  (forall p,
      In p (run SingleFile []
              [AddRound 1000; AddPlayer 1001; AddRound 1002; RemoveRound 5;
               RemoveRound 0]) ->
      List.length (scores p) =
      numRounds (run SingleFile []
                   [AddRound 1000; AddPlayer 1001; AddRound 1002; RemoveRound 5;
                    RemoveRound 0])).
Proof.
  split; [reflexivity|].
  apply (round_count_invariant SingleFile
           [AddRound 1000; AddPlayer 1001; AddRound 1002; RemoveRound 5;
            RemoveRound 0] []).
  - intros p [].
  - simpl. repeat split; lia.
Defined.

(** ** Persistence *)

Section PersistenceFacts.

Variable Text : Type.
Variable JSON_stringify : SavedData -> Text.
Variable JSON_parse : Text -> option SavedData.
Variable truthy : Text -> bool.

(** What the model asks of the codec: parsing what was written gives the
    record back, and the text written is not the empty string. *)
Hypothesis parse_stringify : forall d, JSON_parse (JSON_stringify d) = Some d.
Hypothesis stringify_truthy : forall d, truthy (JSON_stringify d) = true.

#[local] Abbreviation save := (saveEffect Text JSON_stringify).
#[local] Abbreviation load := (loadSavedData Text JSON_parse truthy).

Lemma load_save (now_save now_load : Z) (ps : list Player) (title : string)
  (store : Storage Text) :
  load now_load (save now_save ps title store) =
  if now_load - now_save <? EXPIRY_TIME
  then (Some (mkSavedData ps title now_save), save now_save ps title store)
  else (None, None).
Proof.
  unfold loadSavedData, saveEffect.
  rewrite stringify_truthy, parse_stringify. reflexivity.
Qed.

(** C3.  A load made less than 36,000,000 ms after the save returns the
    saved record and keeps the store; a load made 36,000,000 ms after it or
    later removes the record and returns [null], from which the application
    starts empty.  A record one millisecond younger than the window is kept,
    one a millisecond older is dropped. *)
Theorem load_after_save (now_save now_load : Z) (ps : list Player)
  (title : string) (store : Storage Text) :
  (now_load - now_save < 36000000 ->
     load now_load (save now_save ps title store)
     = (Some (mkSavedData ps title now_save), save now_save ps title store) /\
     initialPlayers (fst (load now_load (save now_save ps title store))) = ps) /\
  (36000000 <= now_load - now_save ->
     load now_load (save now_save ps title store) = (None, None) /\
     initialPlayers (fst (load now_load (save now_save ps title store))) = [] /\
     initialTitle (fst (load now_load (save now_save ps title store)))
     = "Score Keeper") /\
  load (now_save + (36000000 - 1)) (save now_save ps title store)
  = (Some (mkSavedData ps title now_save), save now_save ps title store) /\
  load (now_save + (36000000 + 1)) (save now_save ps title store) = (None, None).
Proof.
  rewrite !load_save. change EXPIRY_TIME with 36000000.
  repeat split.
  - destruct (Z.ltb_spec (now_load - now_save) 36000000); [reflexivity | lia].
  - destruct (Z.ltb_spec (now_load - now_save) 36000000); [reflexivity | lia].
  - destruct (Z.ltb_spec (now_load - now_save) 36000000); [lia | reflexivity].
  - destruct (Z.ltb_spec (now_load - now_save) 36000000); [lia | reflexivity].
  - destruct (Z.ltb_spec (now_load - now_save) 36000000); [lia | reflexivity].
  - destruct (Z.ltb_spec (now_save + (36000000 - 1) - now_save) 36000000);
      [reflexivity | lia].
  - destruct (Z.ltb_spec (now_save + (36000000 + 1) - now_save) 36000000);
      [lia | reflexivity].
Qed.

End PersistenceFacts.

(** The codec that stores the record itself meets the two requirements. *)
Lemma load_after_save_witness :
  loadSavedData SavedData Some (fun _ => true) 36000999
    (saveEffect SavedData (fun d => d) 1000
       [mkPlayer "1" "Ann" [Some 5; None]] "Friday" None)
  = (Some (mkSavedData [mkPlayer "1" "Ann" [Some 5; None]] "Friday" 1000),
     Some (mkSavedData [mkPlayer "1" "Ann" [Some 5; None]] "Friday" 1000)) /\
  loadSavedData SavedData Some (fun _ => true) 36001000
    (saveEffect SavedData (fun d => d) 1000
       [mkPlayer "1" "Ann" [Some 5; None]] "Friday" None)
  = (None, None).
Proof.
  pose proof (load_after_save SavedData (fun d => d) Some (fun _ => true)
                (fun d => eq_refl) (fun d => eq_refl) 1000 36000999
                [mkPlayer "1" "Ann" [Some 5; None]] "Friday" None) as Hin.
  pose proof (load_after_save SavedData (fun d => d) Some (fun _ => true)
                (fun d => eq_refl) (fun d => eq_refl) 1000 36001000
                [mkPlayer "1" "Ann" [Some 5; None]] "Friday" None) as Hout.
  destruct Hin as [Hin _]. destruct Hout as [_ [Hout _]].
  split.
  - apply Hin. lia.
  - apply Hout. lia.
Defined.

(** ** Adding a round *)

Lemma numRounds_map_cons (g : Player -> Player) (p : Player) (ps : list Player) :
  numRounds (map g (p :: ps)) = List.length (scores (g p)).
Proof. reflexivity. Qed.

(** C6, the claim as it stands fails on the modular handler: with no player
    it alerts and leaves the ledger empty. *)
Lemma addRound_modular_empty_ledger :
  handleAddRound Modular 1000 [] = [] /\
  List.length (handleAddRound Modular 1000 []) <> 1%nat.
Proof.
  split; [reflexivity | discriminate].
Qed.

(** C6, amended.  With no player, the single-file handler creates exactly
    one player, "Player 1", with five absent slots, and the round count stays
    5, while the modular handler leaves the ledger empty.  With at least one
    player, both handlers append one absent slot to the scores of every
    player and change nothing else, and the round count grows by one. *)
Theorem addRound_effect (f : flavour) (now : Z) (ps : list Player) :
  (ps = [] ->
     handleAddRound SingleFile now ps
     = [mkPlayer (JS.toString now) "Player 1" [None; None; None; None; None]] /\
     numRounds (handleAddRound SingleFile now ps) = 5%nat /\
     handleAddRound Modular now ps = []) /\
  (ps <> [] ->
     List.length (handleAddRound f now ps) = List.length ps /\
     (forall k p, nth_error ps k = Some p ->
        nth_error (handleAddRound f now ps) k
        = Some (mkPlayer (id p) (name p) (scores p ++ [None]))) /\
     numRounds (handleAddRound f now ps) = S (numRounds ps)).
Proof.
  split.
  - intros ->. repeat split; reflexivity.
  - intros Hne. destruct ps as [|p0 ps']; [congruence|].
    unfold handleAddRound. cbn [List.length Nat.eqb].
    repeat split.
    + now rewrite length_map.
    + intros k p Hk. rewrite nth_error_map, Hk. reflexivity.
    + rewrite numRounds_map_cons. cbn [set_scores scores numRounds].
      rewrite length_app. simpl. lia.
Qed.

Lemma addRound_effect_witness :
  handleAddRound SingleFile 1000 []
  = [mkPlayer "1000" "Player 1" [None; None; None; None; None]] /\
  numRounds (handleAddRound Modular 7 [mkPlayer "1" "Ann" [Some 5; Some 3; None]])
  = 4%nat.
Proof.
  split.
  - apply (addRound_effect SingleFile 1000 []). reflexivity.
  - apply (addRound_effect Modular 7 [mkPlayer "1" "Ann" [Some 5; Some 3; None]]).
    discriminate.
Defined.

(** ** Edits that name no player *)

Lemma map_unchanged {A} (g : A -> A) (l : list A) :
  (forall x, In x l -> g x = x) -> map g l = l.
Proof.
  induction l as [|x l IH]; intros H; simpl; [reflexivity|].
  rewrite H by now left. f_equal. apply IH. intros y Hy. apply H. now right.
Qed.

(** C10.  When no player of the ledger has the id, [handleScoreChange] and
    [handleNameChange] return the players as they were. *)
Theorem edit_unknown_id_is_noop (ps : list Player) (i : string) (roundIndex : Z)
  (s : Score) (newName : string) :
  (forall p, In p ps -> id p <> i) ->
  handleScoreChange i roundIndex s ps = ps /\
  handleNameChange i newName ps = ps.
Proof.
  intros Hid.
  split; apply map_unchanged; intros p Hp;
    destruct (String.eqb_spec (id p) i) as [E|E];
    solve [reflexivity | exfalso; exact (Hid p Hp E)].
Qed.

Lemma edit_unknown_id_is_noop_witness :
  handleScoreChange "9" 1 (Some 4)
    [mkPlayer "1" "Ann" [Some 5; None]; mkPlayer "2" "Bob" [None; None]]
  = [mkPlayer "1" "Ann" [Some 5; None]; mkPlayer "2" "Bob" [None; None]] /\
  handleNameChange "9" "Zed"
    [mkPlayer "1" "Ann" [Some 5; None]; mkPlayer "2" "Bob" [None; None]]
  = [mkPlayer "1" "Ann" [Some 5; None]; mkPlayer "2" "Bob" [None; None]].
Proof.
  apply (edit_unknown_id_is_noop
           [mkPlayer "1" "Ann" [Some 5; None]; mkPlayer "2" "Bob" [None; None]]
           "9" 1 (Some 4) "Zed").
  intros p [<-|[<-|[]]]; discriminate.
Defined.

(** ** The ranking *)

Section Ranking.

Variable A : Type.
Variable compare : A -> A -> Z.

Lemma sort_insert_perm (x : A) (l : list A) :
  Permutation (x :: l) (JS.sort_insert compare x l).
Proof.
  induction l as [|y l IH]; simpl; [reflexivity|].
  destruct (compare x y <=? 0); [reflexivity|].
  rewrite perm_swap. now apply perm_skip.
Qed.

Lemma Array_sort_perm (l : list A) : Permutation l (JS.Array_sort compare l).
Proof.
  induction l as [|x l IH]; simpl; [constructor|].
  rewrite <- sort_insert_perm. now apply perm_skip.
Qed.

End Ranking.

(** ** The totals the views show *)

(** With pairwise distinct ids the lookup by id finds the player's own
    total. *)
Lemma find_total_own (ps : list Player) (p : Player) :
  NoDup (map id ps) -> In p ps -> find_total (playerTotals ps) p = total p.
Proof.
  unfold find_total, playerTotals.
  induction ps as [|q ps IH]; intros Hnd Hin; [contradiction|].
  simpl. apply NoDup_cons_iff in Hnd as [Hq Hnd].
  destruct (String.eqb_spec (id q) (id p)) as [E|E].
  - destruct Hin as [->|Hin]; [reflexivity|].
    exfalso. apply Hq. rewrite E. now apply in_map.
  - destruct Hin as [->|Hin]; [congruence|]. now apply IH.
Qed.

Lemma excelCells_last (p : Player) :
  last (excelCells p) (TextCell "") = NumberCell (total p).
Proof.
  unfold excelCells.
  rewrite app_comm_cons. apply last_last.
Qed.

(** C1, the claim as it stands fails on the modular table: it finds the
    total to show by id, so when a clock reading comes back and two players
    share an id, the row of the second shows the total of the first. *)
Lemma modular_table_shows_other_total :
  run Modular [] [AddPlayer 1000; ScoreChange "1000" 0 (Some 5); AddPlayer 1000]
  = [mkPlayer "1000" "Player 1" [Some 5; None; None; None; None];
     mkPlayer "1000" "Player 2" [None; None; None; None; None]] /\
  totalScore Modular
    (sortedPlayers
       [mkPlayer "1000" "Player 1" [Some 5; None; None; None; None];
        mkPlayer "1000" "Player 2" [None; None; None; None; None]])
    (mkPlayer "1000" "Player 2" [None; None; None; None; None]) = 5 /\
  sumZ (presentScores [None; None; None; None; None]) = 0.
Proof.
  repeat split.
Qed.

(** C1, amended.  The total of a player is the sum of the present scores,
    and an absent slot adds nothing wherever it stands.  This total is the
    one the ranking compares, the one the single-file tables show in the
    player's row, and the last cell of the player's row of the spreadsheet,
    whose rows follow the ranking.  The modular table, which finds the total
    by id, shows it in the row of every player when the ids are pairwise
    distinct. *)
Theorem shown_total_is_sum_of_present_scores :
  (forall p, total p = sumZ (presentScores (scores p))) /\
  (forall i n l1 l2,
      total (mkPlayer i n (l1 ++ None :: l2)) = total (mkPlayer i n (l1 ++ l2))) /\
  (forall a b, compareTotals a b =
      sumZ (presentScores (scores b)) - sumZ (presentScores (scores a))) /\
  (forall ps p,
      totalScore SingleFile (sortedPlayers ps) p = sumZ (presentScores (scores p))) /\
  (forall ps p, NoDup (map id ps) -> In p ps ->
      totalScore Modular (sortedPlayers ps) p = sumZ (presentScores (scores p))) /\
  (forall ps k row, nth_error (worksheetData ps) (S k) = Some row ->
      exists p, nth_error (sortedPlayers ps) k = Some p /\
                last row (TextCell "")
                = NumberCell (sumZ (presentScores (scores p)))).
Proof.
  split; [exact total_sum|].
  split.
  { intros i n l1 l2. rewrite !total_sum. simpl.
    rewrite !presentScores_app. reflexivity. }
  split.
  { intros a b. unfold compareTotals. now rewrite !total_sum. }
  split.
  { intros ps p. apply total_sum. }
  split.
  { intros ps p Hnd Hp. unfold totalScore.
    pose proof (Array_sort_perm Player compareTotals ps) as Hperm.
    fold (sortedPlayers ps) in Hperm.
    rewrite find_total_own.
    - apply total_sum.
    - eapply Permutation_NoDup; [|exact Hnd]. now apply Permutation_map.
    - now apply (Permutation_in _ Hperm). }
  intros ps k row Hrow. unfold worksheetData in Hrow. cbn [nth_error] in Hrow.
  rewrite nth_error_map in Hrow.
  destruct (nth_error (sortedPlayers ps) k) as [p|]; [|discriminate].
  injection Hrow as <-. exists p. split; [reflexivity|].
  now rewrite excelCells_last, total_sum.
Qed.

Lemma shown_total_is_sum_of_present_scores_witness :
  totalScore Modular
    (sortedPlayers [mkPlayer "1" "Ann" [Some 5; Some 3; None];
                    mkPlayer "2" "Bob" [Some 1; Some 9; Some 2]])
    (mkPlayer "1" "Ann" [Some 5; Some 3; None])
  = sumZ (presentScores [Some 5; Some 3; None]).
Proof.
  apply (proj1 (proj2 (proj2 (proj2 (proj2 shown_total_is_sum_of_present_scores))))
           [mkPlayer "1" "Ann" [Some 5; Some 3; None];
            mkPlayer "2" "Bob" [Some 1; Some 9; Some 2]]
           (mkPlayer "1" "Ann" [Some 5; Some 3; None])).
  - repeat constructor; simpl; intuition discriminate.
  - left. reflexivity.
Defined.

Lemma sort_insert_sorted (x : Player) (l : list Player) :
  StronglySorted (fun a b => total a >= total b) l ->
  StronglySorted (fun a b => total a >= total b) (JS.sort_insert compareTotals x l).
Proof.
  induction 1 as [|y l Hl IH Hy]; simpl.
  - repeat constructor.
  - unfold compareTotals at 1.
    destruct (Z.leb_spec (total y - total x) 0) as [Hle|Hgt].
    + constructor; [now constructor|].
      constructor; [lia|].
      eapply Forall_impl; [|exact Hy]. simpl. intros b Hb. lia.
    + constructor; [exact IH|].
      eapply Permutation_Forall; [apply sort_insert_perm|].
      constructor; [lia | exact Hy].
Qed.

Lemma sort_insert_withTotal (t : Z) (x : Player) (l : list Player) :
  withTotal t (JS.sort_insert compareTotals x l) = withTotal t (x :: l).
Proof.
  unfold withTotal.
  induction l as [|y l IH]; simpl; [reflexivity|].
  unfold compareTotals at 1.
  destruct (Z.leb_spec (total y - total x) 0) as [Hle|Hgt]; [reflexivity|].
  simpl in *. rewrite IH.
  destruct (Z.eqb_spec (total x) t), (Z.eqb_spec (total y) t);
    solve [reflexivity | lia].
Qed.

Lemma sortedPlayers_sorted (ps : list Player) :
  StronglySorted (fun a b => total a >= total b) (sortedPlayers ps).
Proof.
  induction ps as [|p ps IH]; [constructor|].
  now apply sort_insert_sorted.
Qed.

Lemma sortedPlayers_withTotal (t : Z) (ps : list Player) :
  withTotal t (sortedPlayers ps) = withTotal t ps.
Proof.
  induction ps as [|p ps IH]; [reflexivity|].
  unfold sortedPlayers in *. simpl JS.Array_sort.
  rewrite sort_insert_withTotal. unfold withTotal in *. simpl. now rewrite IH.
Qed.

Lemma sorted_precedes (l : list Player) (a b : Player) :
  StronglySorted (fun a b => total a >= total b) l ->
  precedes l a b -> total a >= total b.
Proof.
  intros Hl (l1 & l2 & l3 & ->).
  induction l1 as [|x l1 IH]; simpl in Hl; apply StronglySorted_inv in Hl.
  - destruct Hl as [_ Ha]. rewrite Forall_forall in Ha. apply Ha.
    apply in_or_app. right. now left.
  - now apply IH.
Qed.

(** C4.  The ranking holds the same players, in an order in which totals
    never increase, so that a player with a greater total stands before
    every player with a smaller one; and the players of any one total stand
    in the ranking in the order they have in the ledger. *)
Theorem ranking_stable_descending (ps : list Player) :
  Permutation ps (sortedPlayers ps) /\
  StronglySorted (fun a b => total a >= total b) (sortedPlayers ps) /\
  (forall a b, In a ps -> In b ps -> total a > total b ->
               precedes (sortedPlayers ps) a b /\
               ~ precedes (sortedPlayers ps) b a) /\
  (forall t, withTotal t (sortedPlayers ps) = withTotal t ps).
Proof.
  pose proof (sortedPlayers_sorted ps) as Hs.
  pose proof (Array_sort_perm Player compareTotals ps) as Hp.
  fold (sortedPlayers ps) in Hp.
  split; [exact Hp|]. split; [exact Hs|]. split; [|intros t; apply sortedPlayers_withTotal].
  intros a b Ha Hb Hab. split.
  - apply (Permutation_in _ Hp) in Ha, Hb.
    apply in_split in Ha as (l1 & l2 & E).
    rewrite E in Hb. apply in_app_or in Hb as [Hb|[Hb|Hb]].
    + exfalso. apply in_split in Hb as (l3 & l4 & ->).
      assert (total b >= total a); [|lia].
      apply (sorted_precedes (sortedPlayers ps)); [exact Hs|].
      exists l3, l4, l2. rewrite E. now rewrite <- app_assoc.
    + subst. lia.
    + apply in_split in Hb as (l3 & l4 & ->).
      exists l1, l3, l4. exact E.
  - intros Hba. apply (sorted_precedes _ _ _ Hs) in Hba. lia.
Qed.

Lemma ranking_stable_descending_witness :
  precedes
    (sortedPlayers [mkPlayer "1" "Ann" [Some 5; Some 3; None];
                    mkPlayer "2" "Bob" [Some 1; Some 9; Some 2]])
    (mkPlayer "2" "Bob" [Some 1; Some 9; Some 2])
    (mkPlayer "1" "Ann" [Some 5; Some 3; None]).
Proof.
  apply (ranking_stable_descending
           [mkPlayer "1" "Ann" [Some 5; Some 3; None];
            mkPlayer "2" "Bob" [Some 1; Some 9; Some 2]]).
  - right. left. reflexivity.
  - left. reflexivity.
  - reflexivity.
Defined.

(** ** The winner flag *)

Lemma Math_max_upper (xs : list Z) (x : Z) :
  x <= JS.Math_max x xs /\ Forall (fun y => y <= JS.Math_max x xs) xs.
Proof.
  unfold JS.Math_max. revert x.
  induction xs as [|y xs IH]; intros x; simpl.
  - split; [lia | constructor].
  - destruct (IH (Z.max x y)) as [H1 H2]. split; [lia|].
    constructor; [lia | exact H2].
Qed.

Lemma Math_max_attained (xs : list Z) (x : Z) : In (JS.Math_max x xs) (x :: xs).
Proof.
  unfold JS.Math_max. revert x.
  induction xs as [|y xs IH]; intros x; simpl.
  - now left.
  - destruct (IH (Z.max x y)) as [H|H].
    + destruct (Z.max_spec x y) as [[_ E]|[_ E]]; rewrite E in *;
        [right; left | left]; exact H.
    + right. right. exact H.
Qed.

Lemma playerTotals_totals (ps : list Player) :
  map snd (playerTotals ps) = map total ps.
Proof.
  unfold playerTotals. rewrite map_map. reflexivity.
Qed.

(** [highestScore] is the greatest total of a table with rows. *)
Lemma highestScore_max (ps : list Player) :
  ps <> [] ->
  (forall q, In q ps -> total q <= highestScore ps) /\
  (exists q, In q ps /\ total q = highestScore ps).
Proof.
  intros Hne. unfold highestScore. rewrite playerTotals_totals.
  destruct ps as [|p0 ps']; [congruence|]. simpl map.
  destruct (Math_max_upper (map total ps') (total p0)) as [H0 Hall].
  split.
  - intros q [<-|Hq]; [exact H0|].
    rewrite Forall_forall in Hall. apply Hall. now apply in_map.
  - destruct (Math_max_attained (map total ps') (total p0)) as [E|Hin].
    + exists p0. split; [now left | exact E].
    + apply in_map_iff in Hin as (q & E & Hq). exists q. split; [now right | exact E].
Qed.

Lemma isWinner_modular (rows : list Player) (index : nat) (p : Player) :
  NoDup (map id rows) -> In p rows ->
  isWinner Modular rows index p = true <->
  0 < total p /\ (forall q, In q rows -> total q <= total p).
Proof.
  intros Hnd Hin. unfold isWinner. rewrite (find_total_own rows p Hnd Hin).
  assert (Hne : rows <> []) by (intros ->; contradiction).
  destruct (highestScore_max rows Hne) as [Hup (q & Hq & Eq)].
  rewrite andb_true_iff, Z.ltb_lt, Z.eqb_eq. split.
  - intros [Hpos E]. split; [exact Hpos|]. intros r Hr. rewrite E. now apply Hup.
  - intros [Hpos Hmax]. split; [exact Hpos|].
    apply Z.le_antisymm; [now apply Hup|]. rewrite <- Eq. now apply Hmax.
Qed.

(** C5, the claim as it stands fails on the single-file tables: of two
    players tied for a positive highest total only the first is flagged. *)
Lemma tied_winner_not_flagged :
  winnerFlags SingleFile [mkPlayer "1" "Ann" [Some 5]; mkPlayer "2" "Bob" [Some 5]]
  = [(mkPlayer "1" "Ann" [Some 5], true); (mkPlayer "2" "Bob" [Some 5], false)] /\
  total (mkPlayer "2" "Bob" [Some 5]) > 0 /\
  total (mkPlayer "2" "Bob" [Some 5]) = total (mkPlayer "1" "Ann" [Some 5]).
Proof.
  repeat split.
Qed.

(** C5, amended.  In the modular table, when the ids of the players are
    pairwise distinct, the row of a player is flagged exactly when the
    player's total is positive and no player has a greater one.  In the
    single-file tables the flagged row is the first row of the ranking when
    its total is positive, and no other; that row has the greatest total. *)
Theorem winner_flag (ps : list Player) (index : nat) (p : Player) :
  nth_error (sortedPlayers ps) index = Some p ->
  (NoDup (map id ps) ->
     isWinner Modular (sortedPlayers ps) index p = true <->
     total p > 0 /\ (forall q, In q ps -> total q <= total p)) /\
  (isWinner SingleFile (sortedPlayers ps) index p = true <->
     index = 0%nat /\ total p > 0) /\
  (isWinner SingleFile (sortedPlayers ps) index p = true ->
     forall q, In q ps -> total q <= total p).
Proof.
  intros Hrow.
  pose proof (Array_sort_perm Player compareTotals ps) as Hperm.
  fold (sortedPlayers ps) in Hperm.
  split; [|split].
  - intros Hnd.
    rewrite isWinner_modular.
    + split; intros [Hpos Hmax]; (split; [lia|]); intros q Hq; apply Hmax.
      * now apply (Permutation_in _ Hperm).
      * now apply (Permutation_in _ (Permutation_sym Hperm)).
    + eapply Permutation_NoDup; [|exact Hnd]. now apply Permutation_map.
    + eapply nth_error_In. exact Hrow.
  - unfold isWinner. rewrite andb_true_iff, Nat.eqb_eq, Z.ltb_lt. lia.
  - unfold isWinner. rewrite andb_true_iff, Nat.eqb_eq. intros [-> _] q Hq.
    pose proof (sortedPlayers_sorted ps) as Hs.
    apply (Permutation_in _ Hperm) in Hq.
    destruct (sortedPlayers ps) as [|r rows]; [discriminate|].
    injection Hrow as ->. destruct Hq as [<-|Hq]; [lia|].
    apply StronglySorted_inv in Hs as [_ Hall].
    rewrite Forall_forall in Hall. specialize (Hall q Hq). lia.
Qed.

Lemma winner_flag_witness :
  isWinner Modular
    (sortedPlayers [mkPlayer "1" "Ann" [Some 5; Some 3; None];
                    mkPlayer "2" "Bob" [Some 1; Some 9; Some 2]])
    0 (mkPlayer "2" "Bob" [Some 1; Some 9; Some 2]) = true.
Proof.
  destruct (winner_flag [mkPlayer "1" "Ann" [Some 5; Some 3; None];
                         mkPlayer "2" "Bob" [Some 1; Some 9; Some 2]]
              0 (mkPlayer "2" "Bob" [Some 1; Some 9; Some 2]) eq_refl)
    as [Hmodular _].
  apply Hmodular.
  - repeat constructor; simpl; intuition discriminate.
  - split; [reflexivity|].
    intros q [<-|[<-|[]]]; discriminate.
Defined.

(** ** The cumulative progression *)

Lemma flat_map_seq_shift {B} (g : nat -> list B) (n : nat) :
  flat_map g (seq 1 n) = flat_map (fun r => g (S r)) (seq 0 n).
Proof.
  rewrite <- seq_shift, !flat_map_concat_map, map_map. reflexivity.
Qed.

Lemma pointsFrom_cons (from : nat) (acc : Z) (s : Score) (l : list Score) :
  pointsFrom from acc (s :: l) =
  match s with
  | Some v => mkPoint (Z.of_nat from + 1) (acc + v) :: pointsFrom (S from) (acc + v) l
  | None => pointsFrom (S from) acc l
  end.
Proof.
  unfold pointsFrom. cbn [List.length seq flat_map nth].
  rewrite flat_map_seq_shift.
  assert (E : forall v r,
             mkPoint (Z.of_nat (from + S r) + 1)
               (acc + sumZ (presentScores (firstn (S (S r)) (Some v :: l))))
             = mkPoint (Z.of_nat (S from + r) + 1)
                 (acc + v + sumZ (presentScores (firstn (S r) l)))).
  { intros v r. apply f_equal2; [lia|].
    change (firstn (S (S r)) (Some v :: l)) with (Some v :: firstn (S r) l).
    cbn [presentScores flat_map app sumZ fold_right].
    fold (presentScores (firstn (S r) l)). fold (sumZ (presentScores (firstn (S r) l))).
    lia. }
  destruct s as [v|].
  - cbn [firstn presentScores flat_map app sumZ fold_right].
    rewrite Nat.add_0_r, Z.add_0_r. cbn [app]. f_equal.
    apply flat_map_ext. intros r. cbn [nth].
    destruct (nth r l None); [|reflexivity]. f_equal. apply E.
  - cbn [app]. apply flat_map_ext. intros r. cbn [nth].
    destruct (nth r l None); [|reflexivity]. f_equal.
    apply f_equal2; [lia|].
    change (firstn (S (S r)) (None :: l)) with (@None Z :: firstn (S r) l).
    reflexivity.
Qed.

Lemma forEach_pushPoint (l : list Score) (from : nat) (acc : Z) (pts : list Point) :
  forEach_from pushPoint from l (acc, pts)
  = (acc + sumZ (presentScores l), pts ++ pointsFrom from acc l).
Proof.
  revert from acc pts. induction l as [|s l IH]; intros from acc pts.
  - simpl. unfold pointsFrom. simpl. now rewrite Z.add_0_r, app_nil_r.
  - cbn [forEach_from]. rewrite pointsFrom_cons. destruct s as [v|].
    + unfold pushPoint. cbn [fst snd]. rewrite IH, <- app_assoc.
      cbn [presentScores flat_map app sumZ fold_right].
      fold (presentScores l). fold (sumZ (presentScores l)).
      f_equal. lia.
    + unfold pushPoint. rewrite IH. reflexivity.
Qed.

(** C7.  The points of a player's line are the start point (0, 0) followed,
    for each round with a present score in increasing order, by the round
    number and the sum of the present scores up to that round; a round with
    an absent score gives no point.  The scores [5, null, 3] give
    (0,0), (1,5), (3,8). *)
Theorem chartPoints_progression :
  (forall p, chartPoints p = progression (scores p)) /\
  (forall i n, chartPoints (mkPlayer i n [Some 5; None; Some 3])
               = [mkPoint 0 0; mkPoint 1 5; mkPoint 3 8]).
Proof.
  split; [|reflexivity].
  intros p. unfold chartPoints, progression.
  rewrite forEach_pushPoint. cbn [snd app]. f_equal.
Qed.

(** ** Decimal text of an integer *)

Import ScoreEntry.

Lemma toString_inj (m n : Z) : JS.toString m = JS.toString n -> m = n.
Proof.
  unfold JS.toString. intros E.
  apply DecimalZ.to_int_inj.
  assert (H : Some (Z.to_int m) = Some (Z.to_int n))
    by now rewrite <- !NilEmpty.isi, E.
  now injection H.
Qed.

(** The value of a digit sequence, most significant digit first. *)
Lemma of_uint_cons (d : Decimal.uint) :
  d <> Decimal.Nil ->
  Pos.of_uint d
  = (DecimalPos.Unsigned.hd d * 10 ^ DecimalPos.Unsigned.usize (DecimalPos.Unsigned.tl d)
     + Pos.of_uint (DecimalPos.Unsigned.tl d))%N.
Proof.
  intros Hd. rewrite (DecimalPos.Unsigned.of_uint_alt d).
  destruct d; [congruence | ..];
    unfold Decimal.rev; cbn [Decimal.revapp DecimalPos.Unsigned.tl DecimalPos.Unsigned.hd];
    rewrite DecimalPos.Unsigned.of_lu_revapp, <- DecimalPos.Unsigned.of_uint_alt;
    cbn [DecimalPos.Unsigned.of_lu]; lia.
Qed.

Lemma digitValue_hd (d : Decimal.uint) :
  d <> Decimal.Nil ->
  exists c,
    NilEmpty.string_of_uint d = String c (NilEmpty.string_of_uint (DecimalPos.Unsigned.tl d)) /\
    digitValue c = Some (DecimalPos.Unsigned.hd d) /\
    isWhiteSpace c = false /\
    (Ascii.eqb c "-" = false /\ Ascii.eqb c "+" = false /\ Ascii.eqb c "I" = false).
Proof.
  intros Hd. destruct d; [congruence | ..]; eexists; repeat split.
Qed.

(** Evaluates [digitValue] on the character at the head of the goal's text. *)
Ltac eval_digit :=
  match goal with
  | |- context [digitValue ?c] =>
      let v := eval vm_compute in (digitValue c) in
      change (digitValue c) with v; cbv iota beta
  end.

Lemma readDigits_uint (d : Decimal.uint) (acc : N) (count : nat) :
  readDigits (NilEmpty.string_of_uint d) acc count
  = ((acc * 10 ^ DecimalPos.Unsigned.usize d + Pos.of_uint d)%N,
     (count + Decimal.nb_digits d)%nat, "").
Proof.
  revert acc count. induction d; intros acc count;
    [ simpl; f_equal; f_equal; lia | ..];
    cbn [NilEmpty.string_of_uint readDigits]; eval_digit;
    rewrite IHd;
    match goal with
    | |- context [Pos.of_uint (?c d)] => rewrite (of_uint_cons (c d)) by discriminate
    end;
    cbn [DecimalPos.Unsigned.usize DecimalPos.Unsigned.hd DecimalPos.Unsigned.tl Decimal.nb_digits];
    rewrite N.pow_succ_r'; f_equal; f_equal; lia.
Qed.

Lemma nb_digits_pos (d : Decimal.uint) :
  d <> Decimal.Nil -> (Decimal.nb_digits d =? 0)%nat = false.
Proof.
  destruct d; [congruence | ..]; reflexivity.
Qed.

(** What the two parsers read from the digits of a positive number, with or
    without a minus sign in front. *)
Lemma parse_digits (negative : bool) (p : positive) :
  let text := NilEmpty.string_of_uint (Pos.to_uint p) in
  let s := if negative then String "-" text else text in
  parseInt s = Finite (inject_Z (signed negative (Npos p))) /\
  parseFloat s = Finite (inject_Z (signed negative (Npos p))).
Proof.
  intros text s.
  pose proof (DecimalPos.Unsigned.to_uint_nonnil p) as Hnil.
  destruct (digitValue_hd _ Hnil) as (c & Etext & _ & Hws & Hminus & Hplus & HI).
  fold text in Etext.
  assert (Hsign : readSign (trimStart s) = (negative, text)).
  { subst s. destruct negative.
    - cbn [trimStart]. change (isWhiteSpace "-") with false. cbv iota. reflexivity.
    - rewrite Etext. cbn [trimStart]. rewrite Hws. unfold readSign.
      destruct c as [[] [] [] [] [] [] [] []]; try reflexivity; discriminate. }
  assert (Hdigits : readDigits text 0%N 0%nat
                    = (Npos p, Decimal.nb_digits (Pos.to_uint p), "")).
  { unfold text. rewrite readDigits_uint, DecimalPos.Unsigned.of_to. f_equal. }
  split.
  - unfold parseInt. rewrite Hsign, Hdigits, nb_digits_pos by exact Hnil.
    reflexivity.
  - unfold parseFloat. rewrite Hsign.
    assert (Hinf : String.prefix "Infinity" text = false).
    { rewrite Etext. cbn [String.prefix].
      destruct (Ascii.ascii_dec "I" c) as [<-|Hc]; [discriminate | reflexivity]. }
    rewrite Hinf, Hdigits. cbv iota beta. rewrite Nat.add_0_r.
    rewrite nb_digits_pos by exact Hnil.
    unfold decimal, readExponent. cbn [Z.of_nat Z.sub Z.opp Z.add Z.leb Z.compare].
    unfold inject_Z. f_equal. f_equal. cbn [Z.pow]. lia.
Qed.

Lemma parse_toString (z : Z) :
  parseInt (JS.toString z) = Finite (inject_Z z) /\
  parseFloat (JS.toString z) = Finite (inject_Z z).
Proof.
  destruct z as [|p|p].
  - split; reflexivity.
  - exact (parse_digits false p).
  - exact (parse_digits true p).
Qed.

Lemma readDigits_uint_app (d : Decimal.uint) (rest : string) (acc : N) (count : nat) :
  startsWithDigit rest = false ->
  readDigits (NilEmpty.string_of_uint d ++ rest)%string acc count
  = ((acc * 10 ^ DecimalPos.Unsigned.usize d + Pos.of_uint d)%N,
     (count + Decimal.nb_digits d)%nat, rest).
Proof.
  intros Hrest. revert acc count. induction d; intros acc count;
    [ cbn [NilEmpty.string_of_uint String.append];
      destruct rest as [|c rest]; cbn [readDigits];
      [| cbn [startsWithDigit] in Hrest; destruct (digitValue c); [discriminate|]];
      simpl; f_equal; f_equal; lia
    | ..];
    cbn [NilEmpty.string_of_uint String.append readDigits]; eval_digit;
    rewrite IHd;
    match goal with
    | |- context [Pos.of_uint (?c d)] => rewrite (of_uint_cons (c d)) by discriminate
    end;
    cbn [DecimalPos.Unsigned.usize DecimalPos.Unsigned.hd DecimalPos.Unsigned.tl
         Decimal.nb_digits];
    rewrite N.pow_succ_r'; f_equal; f_equal; lia.
Qed.

(** [parseInt] reads the integer at the head of a text and ignores what
    follows its digits. *)
Lemma parseInt_toString_app (z : Z) (rest : string) :
  startsWithDigit rest = false ->
  parseInt (JS.toString z ++ rest)%string = Finite (inject_Z z).
Proof.
  intros Hrest. unfold JS.toString, parseInt.
  assert (Hpos : forall (negative : bool) (p : positive),
             let text := (NilEmpty.string_of_uint (Pos.to_uint p) ++ rest)%string in
             readSign (trimStart (if negative then String "-" text else text))
             = (negative, text) /\
             readDigits text 0%N 0%nat
             = (Npos p, Decimal.nb_digits (Pos.to_uint p), rest)).
  { intros negative p text.
    pose proof (DecimalPos.Unsigned.to_uint_nonnil p) as Hnil.
    destruct (digitValue_hd _ Hnil) as (c & Etext & _ & Hws & Hminus & Hplus & _).
    split.
    - destruct negative.
      + cbn [trimStart]. change (isWhiteSpace "-") with false. reflexivity.
      + unfold text. rewrite Etext. cbn [String.append trimStart]. rewrite Hws.
        unfold readSign.
        destruct c as [[] [] [] [] [] [] [] []]; try reflexivity; discriminate.
    - unfold text. rewrite readDigits_uint_app, DecimalPos.Unsigned.of_to by exact Hrest.
      f_equal. }
  destruct z as [|p|p].
  - change (NilEmpty.string_of_int (Z.to_int 0) ++ rest)%string with (String "0" rest).
    change (trimStart (String "0" rest)) with (String "0" rest).
    change (readSign (String "0" rest)) with (false, String "0" rest).
    cbv iota beta.
    change (readDigits (String "0" rest) 0%N 0%nat) with (readDigits rest 0%N 1%nat).
    destruct rest as [|c rest]; cbn [readDigits]; [reflexivity|].
    cbn [startsWithDigit] in Hrest.
    destruct (digitValue c) eqn:Hc; [discriminate|]. reflexivity.
  - destruct (Hpos false p) as [Hs Hd]. cbn [Z.to_int NilEmpty.string_of_int].
    cbv zeta in Hs, Hd. rewrite Hs, Hd.
    rewrite nb_digits_pos by apply DecimalPos.Unsigned.to_uint_nonnil. reflexivity.
  - destruct (Hpos true p) as [Hs Hd]. cbn [Z.to_int NilEmpty.string_of_int].
    cbv zeta in Hs, Hd. cbn [String.append]. rewrite Hs, Hd.
    rewrite nb_digits_pos by apply DecimalPos.Unsigned.to_uint_nonnil. reflexivity.
Qed.

Lemma toString_nonempty (z : Z) : JS.toString z <> "".
Proof.
  destruct z as [|p|p]; [discriminate | | discriminate].
  unfold JS.toString. cbn [Z.to_int NilEmpty.string_of_int].
  destruct (digitValue_hd _ (DecimalPos.Unsigned.to_uint_nonnil p)) as (c & E & _).
  rewrite E. discriminate.
Qed.

Lemma readDigits_count (s : string) (acc : N) (count : nat) :
  (count <= snd (fst (readDigits s acc count)))%nat.
Proof.
  revert acc count. induction s as [|c s IH]; intros acc count; cbn [readDigits].
  - apply Nat.le_refl.
  - destruct (digitValue c); [|apply Nat.le_refl].
    eapply Nat.le_trans; [|apply IH]. apply Nat.le_succ_diag_r.
Qed.

(** [parseInt] gives NaN exactly for a text that has no digit after its
    leading white space and sign. *)
Lemma parseInt_NaN (value : string) :
  parseInt value = NaN <->
  startsWithDigit (snd (readSign (trimStart value))) = false.
Proof.
  unfold parseInt. destruct (readSign (trimStart value)) as [negative s1].
  cbn [snd]. destruct s1 as [|c s1]; cbn [readDigits startsWithDigit].
  - split; reflexivity.
  - destruct (digitValue c) as [d|]; [|split; reflexivity].
    pose proof (readDigits_count s1 (0 * 10 + d)%N 1) as Hcount.
    destruct (readDigits s1 (0 * 10 + d)%N 1) as [[mathInt count] rest].
    cbn [fst snd] in Hcount. destruct count; [lia|].
    cbn [Nat.eqb]. split; discriminate.
Qed.

(** ** What a score cell stores *)

(** C8, the claim as it stands fails on both tables.  The single-file table
    guards the empty text only and hands NaN on for a text that is no
    number.  The modular table reads integers only: for the text 3.7, which
    [parseFloat] reads as 37/10, it stores 3. *)
Lemma score_entry_counterexample :
  onChange SingleFile "abc" = Some NaN /\
  onChange Modular "3.7" = Some (Finite (inject_Z 3)) /\
  parseFloat "3.7" = Finite (37 # 10) /\
  ~ (inject_Z 3 == 37 # 10)%Q.
Proof.
  repeat split. discriminate.
Qed.

(** C8, amended.  The modular table never stores NaN: it stores the absent
    value exactly when the text has no digit after its leading white space
    and sign, which includes the empty text, and otherwise the integer at the
    head of the text, so that the decimal text of an integer stores that
    integer whatever follows its digits.  The single-file tables store the absent value for the empty
    text, and for every other text from which [parseFloat] reads a number
    that number, which for the decimal text of an integer is that integer. *)
Theorem score_entry_stores :
  (forall value, onChange Modular value <> Some NaN) /\
  (forall value,
     onChange Modular value = None <->
     startsWithDigit (snd (readSign (trimStart value))) = false) /\
  onChange Modular "" = None /\
  (forall z rest, startsWithDigit rest = false ->
     onChange Modular (JS.toString z ++ rest)%string = Some (Finite (inject_Z z))) /\
  onChange SingleFile "" = None /\
  (forall value, value <> "" -> isNaN (parseFloat value) = false ->
     onChange SingleFile value = Some (parseFloat value)) /\
  (forall z, onChange SingleFile (JS.toString z) = Some (Finite (inject_Z z))).
Proof.
  split; [|split; [|split; [|split; [|split; [|split]]]]].
  - intros value. unfold onChange. destruct (parseInt value); simpl; congruence.
  - intros value. rewrite <- parseInt_NaN. unfold onChange.
    destruct (parseInt value); simpl; split; congruence.
  - reflexivity.
  - intros z rest Hrest. unfold onChange.
    now rewrite parseInt_toString_app.
  - reflexivity.
  - intros value Hne _. unfold onChange.
    destruct (String.eqb_spec value ""); [contradiction | reflexivity].
  - intros z. unfold onChange.
    destruct (String.eqb_spec (JS.toString z) "") as [E|_].
    + exfalso. exact (toString_nonempty z E).
    + now rewrite (proj2 (parse_toString z)).
Qed.

Lemma score_entry_stores_witness :
  onChange Modular "12 points" = Some (Finite (inject_Z 12)) /\
  onChange SingleFile "-4.5" = Some (parseFloat "-4.5").
Proof.
  split.
  - apply (proj1 (proj2 (proj2 (proj2 score_entry_stores))) 12 " points").
    reflexivity.
  - apply (proj1 (proj2 (proj2 (proj2 (proj2 (proj2 score_entry_stores))))) "-4.5").
    + discriminate.
    + reflexivity.
Defined.

(** ** Player ids *)

Lemma ids_map_scores (g : Player -> list Score) (ps : list Player) :
  map id (map (fun p => set_scores p (g p)) ps) = map id ps.
Proof.
  rewrite map_map. reflexivity.
Qed.

(** An event keeps the ids of the ledger, drops some, or adds the text of
    the clock reading it comes with. *)
Lemma ids_step (f : flavour) (ps : list Player) (e : event) (i : string) :
  In i (map id (step f ps e)) ->
  In i (map id ps) \/ In i (map JS.toString (clockReadings [e])).
Proof.
  destruct e as [now|j|j newName|j roundIndex s|now|roundIndex| |]; cbn [step clockReadings].
  - unfold handleAddPlayer. rewrite map_app. intros H.
    apply in_app_or in H as [H|[<-|[]]]; [now left | right; now left].
  - unfold handleRemovePlayer. intros H. left.
    apply in_map_iff in H as (p & <- & Hp). apply filter_In in Hp as [Hp _].
    now apply in_map.
  - unfold handleNameChange. intros H. left.
    apply in_map_iff in H as (q & <- & Hq). apply in_map_iff in Hq as (p & <- & Hp).
    destruct (String.eqb (id p) j); cbn [set_name set_scores id]; apply in_map; exact Hp.
  - unfold handleScoreChange. intros H. left.
    apply in_map_iff in H as (q & <- & Hq). apply in_map_iff in Hq as (p & <- & Hp).
    destruct (String.eqb (id p) j); cbn [set_name set_scores id]; apply in_map; exact Hp.
  - unfold handleAddRound. destruct ps as [|p0 ps']; cbn [List.length Nat.eqb].
    + destruct f; [now left|]. intros [<-|[]]. right. now left.
    + rewrite ids_map_scores. now left.
  - unfold handleRemoveRound. rewrite ids_map_scores. now left.
  - intros [].
  - intros [].
Qed.

Lemma clockReadings_cons (e : event) (es : list event) :
  clockReadings (e :: es) = clockReadings [e] ++ clockReadings es.
Proof.
  destruct e; reflexivity.
Qed.

Lemma ids_run (f : flavour) (es : list event) (ps : list Player) (i : string) :
  In i (map id (run f ps es)) ->
  In i (map id ps) \/ In i (map JS.toString (clockReadings es)).
Proof.
  revert ps. induction es as [|e es IH]; intros ps H; [now left|].
  apply IH in H as [H|H].
  - apply ids_step in H as [H|H]; [now left|]. right.
    rewrite clockReadings_cons, map_app. apply in_or_app. now left.
  - right. rewrite clockReadings_cons, map_app. apply in_or_app. now right.
Qed.

Lemma assignedIds_clock (es : list event) (i : string) :
  In i (assignedIds es) -> In i (map JS.toString (clockReadings es)).
Proof.
  induction es as [|e es IH]; [intros []|].
  destruct e; cbn [assignedIds clockReadings map]; intros H;
    solve [ now apply IH
          | destruct H as [<-|H]; [now left | right; now apply IH]
          | right; now apply IH ].
Qed.

Lemma run_app (f : flavour) (ps : list Player) (es es' : list event) :
  run f ps (es ++ es') = run f (run f ps es) es'.
Proof.
  apply fold_left_app.
Qed.

(** C9, the claim as it stands fails: an id is the text of the clock reading,
    so two players added at the same reading share it, and a removed id comes
    back when the reading comes back. *)
Lemma addPlayer_id_not_fresh :
  map id (run Modular [] [AddPlayer 1000; AddPlayer 1000]) = ["1000"; "1000"] /\
  In (JS.toString 1000) (map id (run Modular [] [AddPlayer 1000])) /\
  run Modular [] [AddPlayer 1000; RemovePlayer "1000"] = [] /\
  In (JS.toString 1000) (assignedIds [AddPlayer 1000; RemovePlayer "1000"]) /\
  map id (run Modular [] [AddPlayer 1000; RemovePlayer "1000"; AddPlayer 1000])
  = ["1000"].
Proof.
  repeat split; simpl; auto.
Qed.

(** C9, amended.  The id [addPlayer] assigns is the decimal text of the clock
    reading of the call.  When that reading differs from the reading of every
    earlier [addPlayer] and [addRound] of the session, and its text is not an
    id of the ledger the session started from, the id differs from the id of
    every player in the ledger and from every id assigned before, whether the
    player that had it was removed or not. *)
Theorem addPlayer_id_fresh (f : flavour) (ps0 : list Player) (pre : list event)
  (now : Z) :
  ~ In (JS.toString now) (map id ps0) ->
  ~ In now (clockReadings pre) ->
  map id (run f ps0 (pre ++ [AddPlayer now]))
  = map id (run f ps0 pre) ++ [JS.toString now] /\
  ~ In (JS.toString now) (map id (run f ps0 pre)) /\
  ~ In (JS.toString now) (assignedIds pre).
Proof.
  intros Hps0 Hclock.
  assert (Hfresh : ~ In (JS.toString now) (map JS.toString (clockReadings pre))).
  { intros H. apply in_map_iff in H as (t & E & Ht).
    apply toString_inj in E. now subst. }
  split; [|split].
  - rewrite run_app. cbn [run fold_left step]. unfold handleAddPlayer.
    now rewrite map_app.
  - intros H. apply ids_run in H as [H|H]; contradiction.
  - intros H. apply assignedIds_clock in H. contradiction.
Qed.

Lemma addPlayer_id_fresh_witness :
  ~ In (JS.toString 1003)
      (map id (run SingleFile [mkPlayer "7" "Ann" [None]]
                 [AddPlayer 1000; RemovePlayer "1000"; AddRound 1001])) /\
  ~ In (JS.toString 1003)
      (assignedIds [AddPlayer 1000; RemovePlayer "1000"; AddRound 1001]).
Proof.
  apply (addPlayer_id_fresh SingleFile [mkPlayer "7" "Ann" [None]]
           [AddPlayer 1000; RemovePlayer "1000"; AddRound 1001] 1003).
  - simpl. intros [H|[]]. discriminate.
  - simpl. lia.
Defined.

(* ================================================================= *)
(** * Part III: further properties of the handlers and views *)
(* ================================================================= *)

(** ** Removing a player *)

Lemma set_scores_same (p : Player) : set_scores p (scores p) = p.
Proof. now destruct p. Qed.

Lemma filter_none {A} (g : A -> bool) (l : list A) :
  (forall x, In x l -> g x = true) -> filter g l = l.
Proof.
  induction l as [|x l IH]; intros H; simpl; [reflexivity|].
  rewrite H by now left. f_equal. apply IH. intros y Hy. apply H. now right.
Qed.

(** X1.  [handleRemovePlayer] leaves no player with the id, keeps exactly
    the players with another id, is a no-op when no player has the id, and
    doing it twice is doing it once. *)
Theorem removePlayer_effect (i : string) (ps : list Player) :
  ~ In i (map id (handleRemovePlayer i ps)) /\
  (forall p, In p (handleRemovePlayer i ps) <-> In p ps /\ id p <> i) /\
  ((forall p, In p ps -> id p <> i) -> handleRemovePlayer i ps = ps) /\
  handleRemovePlayer i (handleRemovePlayer i ps) = handleRemovePlayer i ps.
Proof.
  unfold handleRemovePlayer.
  assert (Hin : forall p, In p (filter (fun p => negb (id p =? i)%string) ps)
                          <-> In p ps /\ id p <> i).
  { intros p. rewrite filter_In, negb_true_iff.
    destruct (String.eqb_spec (id p) i); intuition congruence. }
  split; [|split; [exact Hin|split]].
  - intros H. apply in_map_iff in H as (p & E & Hp). apply Hin in Hp. tauto.
  - intros Hno. apply filter_none. intros p Hp. apply negb_true_iff.
    destruct (String.eqb_spec (id p) i) as [E|E]; [|reflexivity].
    exfalso. exact (Hno p Hp E).
  - apply filter_none. intros p Hp. now apply filter_In in Hp.
Qed.

Lemma removePlayer_effect_witness :
  handleRemovePlayer "9" [mkPlayer "1" "Ann" [Some 5]; mkPlayer "2" "Bob" [None]]
  = [mkPlayer "1" "Ann" [Some 5]; mkPlayer "2" "Bob" [None]].
Proof.
  apply (proj1 (proj2 (proj2 (removePlayer_effect "9"
           [mkPlayer "1" "Ann" [Some 5]; mkPlayer "2" "Bob" [None]])))).
  intros p [<-|[<-|[]]]; discriminate.
Defined.

(** X2.  Adding a player and then removing the id it was given restores the
    ledger, provided no player had that id before. *)
Theorem addPlayer_removePlayer (now : Z) (ps : list Player) :
  ~ In (JS.toString now) (map id ps) ->
  handleRemovePlayer (JS.toString now) (handleAddPlayer now ps) = ps.
Proof.
  intros Hfresh. unfold handleRemovePlayer, handleAddPlayer.
  rewrite filter_app. cbn [filter id]. rewrite String.eqb_refl. cbn [negb].
  rewrite app_nil_r. apply filter_none. intros p Hp.
  apply negb_true_iff. destruct (String.eqb_spec (id p) (JS.toString now)) as [E|E];
    [|reflexivity].
  exfalso. apply Hfresh. rewrite <- E. now apply in_map.
Qed.

Lemma addPlayer_removePlayer_witness :
  handleRemovePlayer "1000" (handleAddPlayer 1000 [mkPlayer "7" "Ann" [Some 5]])
  = [mkPlayer "7" "Ann" [Some 5]].
Proof.
  apply (addPlayer_removePlayer 1000 [mkPlayer "7" "Ann" [Some 5]]).
  simpl. intros [H|[]]. discriminate.
Defined.

Lemma aligned_handleRemovePlayer (i : string) (ps : list Player) :
  aligned ps -> aligned (handleRemovePlayer i ps).
Proof.
  intros Hps. unfold handleRemovePlayer.
  assert (Hall : forall q, In q (filter (fun p => negb (id p =? i)%string) ps) ->
                           List.length (scores q) = numRounds ps).
  { intros q Hq. apply filter_In in Hq as [Hq _]. now apply Hps. }
  intros q Hq. rewrite (Hall q Hq).
  destruct (filter (fun p => negb (id p =? i)%string) ps) as [|q0 qs];
    [contradiction|].
  simpl. symmetry. apply Hall. now left.
Qed.

(** X3.  Removing a player keeps the round-count invariant.  The round count
    stays what it was while a player remains, and falls back to 5 when the
    last player goes. *)
Theorem removePlayer_round_count (i : string) (ps : list Player) :
  aligned ps ->
  aligned (handleRemovePlayer i ps) /\
  (handleRemovePlayer i ps <> [] ->
     numRounds (handleRemovePlayer i ps) = numRounds ps) /\
  (handleRemovePlayer i ps = [] -> numRounds (handleRemovePlayer i ps) = 5%nat).
Proof.
  intros Hps. split; [now apply aligned_handleRemovePlayer|]. split.
  - intros Hne. unfold handleRemovePlayer in *.
    destruct (filter (fun p => negb (id p =? i)%string) ps) as [|q0 qs] eqn:E;
      [congruence|].
    simpl. apply Hps.
    assert (Hq : In q0 (filter (fun p => negb (id p =? i)%string) ps))
      by (rewrite E; now left).
    now apply filter_In in Hq.
  - intros ->. reflexivity.
Qed.

Lemma removePlayer_round_count_witness :
  numRounds (handleRemovePlayer "1" [mkPlayer "1" "Ann" [Some 5; None; None;
                                                          None; None; None; None]])
  = 5%nat.
Proof.
  apply (removePlayer_round_count "1"
           [mkPlayer "1" "Ann" [Some 5; None; None; None; None; None; None]]).
  - intros p [<-|[]]. reflexivity.
  - reflexivity.
Defined.

(** ** Removing a round *)

Lemma filter_from_spec (roundIndex : Z) (l : list Score) (from : nat) :
  JS.filter_from (fun _ i => negb (Z.of_nat i =? roundIndex)) from l
  = if (Z.of_nat from <=? roundIndex) && (roundIndex <? Z.of_nat (from + List.length l))
    then firstn (Z.to_nat roundIndex - from) l
         ++ skipn (S (Z.to_nat roundIndex - from)) l
    else l.
Proof.
  revert from. induction l as [|s l IH]; intros from.
  - cbn [JS.filter_from]. destruct (_ && _); [|reflexivity].
    now rewrite firstn_nil, skipn_nil.
  - cbn [JS.filter_from List.length]. rewrite (IH (S from)).
    destruct (Z.eqb_spec (Z.of_nat from) roundIndex) as [E|E]; cbn [negb].
    + destruct (Z.leb_spec (Z.of_nat (S from)) roundIndex); [lia|]. cbn [andb].
      destruct (Z.leb_spec (Z.of_nat from) roundIndex); [|lia].
      destruct (Z.ltb_spec roundIndex (Z.of_nat (from + S (List.length l)))); [|lia].
      cbn [andb]. replace (Z.to_nat roundIndex - from)%nat with 0%nat by lia.
      reflexivity.
    + destruct (Z.leb_spec (Z.of_nat (S from)) roundIndex);
        destruct (Z.leb_spec (Z.of_nat from) roundIndex); try lia; cbn [andb];
        [|reflexivity].
      destruct (Z.ltb_spec roundIndex (Z.of_nat (S from + List.length l)));
        destruct (Z.ltb_spec roundIndex (Z.of_nat (from + S (List.length l))));
        try lia; [|reflexivity].
      replace (Z.to_nat roundIndex - from)%nat
        with (S (Z.to_nat roundIndex - S from)) by lia.
      reflexivity.
Qed.

Lemma filteri_remove (roundIndex : Z) (l : list Score) :
  JS.filteri (fun _ i => negb (Z.of_nat i =? roundIndex)) l
  = if (0 <=? roundIndex) && (roundIndex <? Z.of_nat (List.length l))
    then firstn (Z.to_nat roundIndex) l ++ skipn (S (Z.to_nat roundIndex)) l
    else l.
Proof.
  unfold JS.filteri. rewrite filter_from_spec. cbn [Z.of_nat Nat.add].
  now rewrite Nat.sub_0_r.
Qed.

(** X4.  [handleRemoveRound] cuts the slot at the index out of the scores of
    every player that has such a slot, and leaves the scores of the others,
    and all ids and names, as they are; an index that is negative or past
    every player's scores changes nothing. *)
Theorem removeRound_effect (roundIndex : Z) (ps : list Player) :
  handleRemoveRound roundIndex ps
  = map (fun p =>
           mkPlayer (id p) (name p)
             (if (0 <=? roundIndex) && (roundIndex <? Z.of_nat (List.length (scores p)))
              then firstn (Z.to_nat roundIndex) (scores p)
                   ++ skipn (S (Z.to_nat roundIndex)) (scores p)
              else scores p))
        ps /\
  ((forall p, In p ps ->
      roundIndex < 0 \/ Z.of_nat (List.length (scores p)) <= roundIndex) ->
   handleRemoveRound roundIndex ps = ps).
Proof.
  assert (E : forall p,
             set_scores p
               (JS.filteri (fun _ i => negb (Z.of_nat i =? roundIndex)) (scores p))
             = mkPlayer (id p) (name p)
                 (if (0 <=? roundIndex)
                     && (roundIndex <? Z.of_nat (List.length (scores p)))
                  then firstn (Z.to_nat roundIndex) (scores p)
                       ++ skipn (S (Z.to_nat roundIndex)) (scores p)
                  else scores p)).
  { intros p. unfold set_scores. now rewrite filteri_remove. }
  split.
  - unfold handleRemoveRound. apply map_ext. exact E.
  - intros Hout. unfold handleRemoveRound. apply map_unchanged.
    intros p Hp. rewrite E.
    destruct (Z.leb_spec 0 roundIndex);
      destruct (Z.ltb_spec roundIndex (Z.of_nat (List.length (scores p))));
      cbn [andb]; try (now destruct p).
    destruct (Hout p Hp); lia.
Qed.

Lemma removeRound_effect_witness :
  handleRemoveRound 3 [mkPlayer "1" "Ann" [Some 5; Some 3; Some 2]]
  = [mkPlayer "1" "Ann" [Some 5; Some 3; Some 2]].
Proof.
  apply (proj2 (removeRound_effect 3 [mkPlayer "1" "Ann" [Some 5; Some 3; Some 2]])).
  intros p [<-|[]]. right. simpl. lia.
Defined.

(** X5.  Adding a round and then removing the round just added restores a
    ledger that has players and keeps the round-count invariant. *)
Theorem addRound_removeRound (f : flavour) (now : Z) (ps : list Player) :
  ps <> [] -> aligned ps ->
  handleRemoveRound (Z.of_nat (numRounds ps)) (handleAddRound f now ps) = ps.
Proof.
  intros Hne Hps. unfold handleAddRound, handleRemoveRound.
  destruct ps as [|p0 ps'] eqn:Eps; [congruence|]. rewrite <- Eps in *.
  replace (List.length ps =? 0)%nat with false by (rewrite Eps; reflexivity).
  rewrite map_map. apply map_unchanged. intros p Hp.
  cbn [set_scores scores id name]. rewrite filteri_remove, length_app.
  rewrite <- (Hps p Hp). cbn [List.length].
  destruct (Z.leb_spec 0 (Z.of_nat (List.length (scores p)))); [|lia].
  destruct (Z.ltb_spec (Z.of_nat (List.length (scores p)))
              (Z.of_nat (List.length (scores p) + 1))); [|lia].
  cbn [andb]. rewrite Nat2Z.id.
  rewrite firstn_app, Nat.sub_diag, firstn_all, firstn_O, app_nil_r.
  rewrite skipn_all2 by (rewrite length_app; simpl; lia).
  rewrite app_nil_r. now destruct p.
Qed.

Lemma addRound_removeRound_witness :
  handleRemoveRound 2 (handleAddRound Modular 7 [mkPlayer "1" "Ann" [Some 5; None]])
  = [mkPlayer "1" "Ann" [Some 5; None]].
Proof.
  apply (addRound_removeRound Modular 7 [mkPlayer "1" "Ann" [Some 5; None]]).
  - discriminate.
  - intros p [<-|[]]. reflexivity.
Defined.

Lemma sumZ_presentScores_app (l1 l2 : list Score) :
  sumZ (presentScores (l1 ++ l2))
  = sumZ (presentScores l1) + sumZ (presentScores l2).
Proof.
  rewrite presentScores_app.
  induction (presentScores l1) as [|x l IH]; simpl; lia.
Qed.

Lemma sumZ_presentScores_split (k : nat) (l : list Score) :
  (k < List.length l)%nat ->
  sumZ (presentScores l)
  = sumZ (presentScores (firstn k l)) + or_zero (nth k l None)
    + sumZ (presentScores (skipn (S k) l)).
Proof.
  revert k. induction l as [|s l IH]; intros k Hk; [simpl in Hk; lia|].
  destruct k as [|k].
  - cbn [firstn skipn nth]. destruct s as [v|].
    + rewrite or_zero_present. simpl. lia.
    + simpl. lia.
  - change (skipn (S (S k)) (s :: l)) with (skipn (S k) l).
    cbn [firstn nth]. simpl in Hk.
    assert (Hk' : (k < List.length l)%nat) by lia.
    change (s :: l) with ([s] ++ l).
    change (s :: firstn k l) with ([s] ++ firstn k l).
    rewrite !sumZ_presentScores_app. rewrite (IH k Hk'). lia.
Qed.

(** X6.  Removing a round lowers the total of a player by what the player's
    slot of that round counted for, and by nothing when the slot was absent. *)
Theorem removeRound_total (roundIndex : Z) (ps : list Player) (k : nat) (p : Player) :
  nth_error ps k = Some p ->
  0 <= roundIndex < Z.of_nat (List.length (scores p)) ->
  exists p',
    nth_error (handleRemoveRound roundIndex ps) k = Some p' /\
    id p' = id p /\ name p' = name p /\
    List.length (scores p') = pred (List.length (scores p)) /\
    total p' = total p - or_zero (nth (Z.to_nat roundIndex) (scores p) None).
Proof.
  intros Hk Hrange. eexists. split.
  - unfold handleRemoveRound. rewrite nth_error_map, Hk. reflexivity.
  - cbn [set_scores id name scores]. rewrite filteri_remove.
    destruct (Z.leb_spec 0 roundIndex); [|lia].
    destruct (Z.ltb_spec roundIndex (Z.of_nat (List.length (scores p)))); [|lia].
    cbn [andb]. repeat split.
    + rewrite length_app, length_firstn, length_skipn.
      rewrite Nat.min_l by lia. lia.
    + rewrite !total_sum. cbn [scores set_scores].
      rewrite sumZ_presentScores_app.
      rewrite (sumZ_presentScores_split (Z.to_nat roundIndex) (scores p)) by lia.
      lia.
Qed.

Lemma removeRound_total_witness :
  exists p',
    nth_error (handleRemoveRound 1 [mkPlayer "1" "Ann" [Some 5; Some 3; Some 2]]) 0
    = Some p' /\ total p' = 7.
Proof.
  destruct (removeRound_total 1 [mkPlayer "1" "Ann" [Some 5; Some 3; Some 2]] 0
              (mkPlayer "1" "Ann" [Some 5; Some 3; Some 2]) eq_refl)
    as (p' & Hnth & _ & _ & _ & Htotal).
  - simpl. lia.
  - exists p'. split; [exact Hnth | exact Htotal].
Defined.

(** ** Editing a score *)

Lemma set_nth_in_range (k : nat) (v : Score) (l : list Score) :
  (k < List.length l)%nat ->
  JS.set_nth None k v l = firstn k l ++ v :: skipn (S k) l.
Proof.
  revert k. induction l as [|x l IH]; intros k Hk; [simpl in Hk; lia|].
  destruct k as [|k]; [reflexivity|].
  simpl in Hk. cbn [JS.set_nth firstn]. rewrite IH by lia. reflexivity.
Qed.

Lemma Array_set_in_range (roundIndex : Z) (v : Score) (l : list Score) :
  0 <= roundIndex < Z.of_nat (List.length l) ->
  JS.Array_set None roundIndex v l
  = firstn (Z.to_nat roundIndex) l ++ v :: skipn (S (Z.to_nat roundIndex)) l.
Proof.
  intros H. unfold JS.Array_set.
  destruct (Z.ltb_spec roundIndex 0); [lia|].
  apply set_nth_in_range. lia.
Qed.

Lemma nth_replaced (k j : nat) (v : Score) (l : list Score) :
  (k < List.length l)%nat ->
  nth j (firstn k l ++ v :: skipn (S k) l) None
  = if (j =? k)%nat then v else nth j l None.
Proof.
  revert k j. induction l as [|x l IH]; intros k j Hk; [simpl in Hk; lia|].
  destruct k as [|k]; destruct j as [|j]; try reflexivity.
  simpl in Hk. change (skipn (S (S k)) (x :: l)) with (skipn (S k) l).
  cbn [firstn app nth Nat.eqb]. apply IH. lia.
Qed.

(** X7.  A score edit at a round the player has puts the value in that slot
    of every player with the id, leaves the other slots, the number of slots,
    the ids and the names as they are, and leaves the players with another
    id untouched. *)
Theorem scoreChange_effect (i : string) (roundIndex : Z) (s : Score)
  (ps : list Player) (k : nat) (p : Player) :
  nth_error ps k = Some p ->
  0 <= roundIndex < Z.of_nat (List.length (scores p)) ->
  exists p',
    nth_error (handleScoreChange i roundIndex s ps) k = Some p' /\
    id p' = id p /\ name p' = name p /\
    List.length (scores p') = List.length (scores p) /\
    (id p = i ->
       forall j, nth j (scores p') None
                 = if (j =? Z.to_nat roundIndex)%nat then s
                   else nth j (scores p) None) /\
    (id p <> i -> p' = p).
Proof.
  intros Hk Hrange. eexists. split.
  - unfold handleScoreChange. rewrite nth_error_map, Hk. reflexivity.
  - destruct (String.eqb_spec (id p) i) as [E|E].
    + cbn [set_scores id name scores].
      rewrite Array_set_in_range by exact Hrange.
      repeat split.
      * rewrite length_app. cbn [List.length].
        rewrite length_firstn, length_skipn, Nat.min_l by lia. lia.
      * intros _ j. apply nth_replaced. lia.
      * intros Hne. contradiction.
    + repeat split. intros Hi. contradiction.
Qed.

Lemma scoreChange_effect_witness :
  exists p',
    nth_error (handleScoreChange "1" 1 (Some 4)
                 [mkPlayer "1" "Ann" [Some 5; None; Some 2]]) 0 = Some p' /\
    nth 1 (scores p') None = Some 4.
Proof.
  destruct (scoreChange_effect "1" 1 (Some 4)
              [mkPlayer "1" "Ann" [Some 5; None; Some 2]] 0
              (mkPlayer "1" "Ann" [Some 5; None; Some 2]) eq_refl)
    as (p' & Hnth & _ & _ & _ & Hslot & _).
  - simpl. lia.
  - exists p'. split; [exact Hnth|]. exact (Hslot eq_refl 1%nat).
Defined.

(** X8.  A score edit changes the total of the edited player by what the new
    value counts for less what the old slot counted for. *)
Theorem scoreChange_total (i : string) (roundIndex : Z) (s : Score)
  (ps : list Player) (k : nat) (p : Player) :
  nth_error ps k = Some p ->
  id p = i ->
  0 <= roundIndex < Z.of_nat (List.length (scores p)) ->
  exists p',
    nth_error (handleScoreChange i roundIndex s ps) k = Some p' /\
    total p' = total p - or_zero (nth (Z.to_nat roundIndex) (scores p) None)
               + or_zero s.
Proof.
  intros Hk Hi Hrange. eexists. split.
  - unfold handleScoreChange. rewrite nth_error_map, Hk. reflexivity.
  - rewrite Hi, String.eqb_refl. rewrite !total_sum. cbn [set_scores scores].
    rewrite Array_set_in_range by exact Hrange.
    rewrite sumZ_presentScores_app.
    change (s :: skipn (S (Z.to_nat roundIndex)) (scores p))
      with ([s] ++ skipn (S (Z.to_nat roundIndex)) (scores p)).
    rewrite sumZ_presentScores_app.
    rewrite (sumZ_presentScores_split (Z.to_nat roundIndex) (scores p)) by lia.
    assert (E : sumZ (presentScores [s]) = or_zero s).
    { destruct s as [v|]; [rewrite or_zero_present; simpl; lia | reflexivity]. }
    rewrite E. lia.
Qed.

Lemma scoreChange_total_witness :
  exists p',
    nth_error (handleScoreChange "1" 1 (Some 4)
                 [mkPlayer "1" "Ann" [Some 5; Some 3; Some 2]]) 0 = Some p' /\
    total p' = 11.
Proof.
  destruct (scoreChange_total "1" 1 (Some 4)
              [mkPlayer "1" "Ann" [Some 5; Some 3; Some 2]] 0
              (mkPlayer "1" "Ann" [Some 5; Some 3; Some 2]) eq_refl eq_refl)
    as (p' & Hnth & Htotal).
  - simpl. lia.
  - exists p'. split; [exact Hnth | exact Htotal].
Defined.

(** ** The round-count invariant under every event *)

Lemma aligned_map_same_length (g : Player -> Player) (ps : list Player) :
  (forall p, In p ps -> List.length (scores (g p)) = List.length (scores p)) ->
  aligned ps -> aligned (map g ps).
Proof.
  intros Hg Hps q Hq. apply in_map_iff in Hq as (p & <- & Hp).
  destruct ps as [|p0 ps']; [contradiction|].
  simpl numRounds. rewrite (Hg p Hp), (Hg p0) by now left.
  rewrite (Hps p Hp). symmetry. apply (Hps p0). now left.
Qed.

Lemma aligned_handleNameChange (i newName : string) (ps : list Player) :
  aligned ps -> aligned (handleNameChange i newName ps).
Proof.
  apply aligned_map_same_length. intros p _.
  now destruct (String.eqb (id p) i).
Qed.

Lemma aligned_handleScoreChange (i : string) (roundIndex : Z) (s : Score)
  (ps : list Player) :
  0 <= roundIndex < Z.of_nat (numRounds ps) ->
  aligned ps -> aligned (handleScoreChange i roundIndex s ps).
Proof.
  intros Hrange Hps. apply aligned_map_same_length; [|exact Hps].
  intros p Hp. destruct (String.eqb (id p) i); [|reflexivity].
  cbn [set_scores scores]. rewrite <- (Hps p Hp) in Hrange.
  rewrite Array_set_in_range by exact Hrange.
  rewrite length_app. cbn [List.length].
  rewrite length_firstn, length_skipn, Nat.min_l by lia. lia.
Qed.

(** X9.  Every event keeps the round-count invariant, a score edit provided
    it names a round of the ledger: after any such sequence all players have
    as many slots as the round count. *)
Theorem aligned_every_event (f : flavour) (es : list event) (ps : list Player) :
  aligned ps -> allKeepRounds f ps es -> aligned (run f ps es).
Proof.
  revert ps. induction es as [|e es IH]; intros ps Hps Hes; [exact Hps|].
  destruct Hes as [He Hes]. simpl. apply IH; [|exact Hes].
  destruct e; cbn [step];
    auto using aligned_handleRemovePlayer, aligned_handleNameChange,
      aligned_handleScoreChange with ledger.
Qed.

Lemma aligned_every_event_witness :
  aligned (run SingleFile []
             [AddRound 1000; ScoreChange "1000" 4 (Some 3); AddPlayer 1001;
              NameChange "1001" "Bob"; RemoveRound 0; RemovePlayer "1000"]).
Proof.
  apply (aligned_every_event SingleFile
           [AddRound 1000; ScoreChange "1000" 4 (Some 3); AddPlayer 1001;
            NameChange "1001" "Bob"; RemoveRound 0; RemovePlayer "1000"] []).
  - intros p [].
  - simpl. repeat split; lia.
Defined.

(** ** Distinct ids *)

Lemma ids_map_same (g : Player -> Player) (ps : list Player) :
  (forall p, id (g p) = id p) -> map id (map g ps) = map id ps.
Proof.
  intros Hg. rewrite map_map. apply map_ext. exact Hg.
Qed.

Lemma NoDup_ids_filter (g : Player -> bool) (ps : list Player) :
  NoDup (map id ps) -> NoDup (map id (filter g ps)).
Proof.
  induction ps as [|p ps IH]; intros Hnd; [constructor|].
  cbn [map] in Hnd. apply NoDup_cons_iff in Hnd as [Hp Hnd].
  cbn [filter]. destruct (g p); [|now apply IH].
  cbn [map]. constructor; [|now apply IH].
  intros H. apply Hp. apply in_map_iff in H as (q & E & Hq).
  apply filter_In in Hq as [Hq _]. rewrite <- E. now apply in_map.
Qed.

Lemma NoDup_ids_step (f : flavour) (ps : list Player) (e : event) :
  NoDup (map id ps) ->
  (forall t, In t (clockReadings [e]) -> ~ In (JS.toString t) (map id ps)) ->
  NoDup (map id (step f ps e)).
Proof.
  intros Hnd Hfresh.
  destruct e as [now|j|j newName|j roundIndex s|now|roundIndex| |]; cbn [step].
  - unfold handleAddPlayer. rewrite map_app. cbn [map id].
    apply NoDup_app; [exact Hnd | repeat constructor; intros [] |].
    intros x Hx [<-|[]]. apply (Hfresh now); [now left | exact Hx].
  - now apply NoDup_ids_filter.
  - unfold handleNameChange. rewrite ids_map_same; [exact Hnd|].
    intros p. now destruct (String.eqb (id p) j).
  - unfold handleScoreChange. rewrite ids_map_same; [exact Hnd|].
    intros p. now destruct (String.eqb (id p) j).
  - unfold handleAddRound. destruct ps as [|p0 ps']; cbn [List.length Nat.eqb].
    + destruct f; [constructor|]. repeat constructor. intros [].
    + now rewrite ids_map_scores.
  - unfold handleRemoveRound. now rewrite ids_map_scores.
  - constructor.
  - constructor.
Qed.

Lemma NoDup_ids_run (f : flavour) (es : list event) (ps : list Player) :
  NoDup (map id ps) ->
  NoDup (clockReadings es) ->
  (forall t, In t (clockReadings es) -> ~ In (JS.toString t) (map id ps)) ->
  NoDup (map id (run f ps es)).
Proof.
  revert ps. induction es as [|e es IH]; intros ps Hnd Hclock Hfresh; [exact Hnd|].
  rewrite clockReadings_cons in Hclock, Hfresh.
  cbn [run fold_left]. apply IH.
  - apply NoDup_ids_step; [exact Hnd|].
    intros t Ht. apply Hfresh. apply in_or_app. now left.
  - now apply NoDup_app_remove_l in Hclock.
  - intros t Ht Hin. apply ids_step in Hin as [Hin|Hin].
    + apply (Hfresh t); [apply in_or_app; now right | exact Hin].
    + apply in_map_iff in Hin as (t' & E & Ht'). apply toString_inj in E. subst t'.
      clear - Hclock Ht Ht'.
      induction (clockReadings [e]) as [|x l IHl]; [contradiction|].
      cbn [app] in Hclock. apply NoDup_cons_iff in Hclock as [Hx Hclock].
      destruct Ht' as [->|Ht']; [|now apply IHl].
      apply Hx. apply in_or_app. now right.
Qed.

(** X10.  When the ids of the ledger are pairwise distinct, the clock
    readings of the [addPlayer] and [addRound] events are pairwise distinct,
    and none of them reads as an id of the ledger, the ids stay pairwise
    distinct through every sequence of events. *)
Theorem ids_stay_distinct (f : flavour) (es : list event) (ps : list Player) :
  NoDup (map id ps) ->
  NoDup (clockReadings es) ->
  (forall t, In t (clockReadings es) -> ~ In (JS.toString t) (map id ps)) ->
  NoDup (map id (run f ps es)).
Proof.
  exact (NoDup_ids_run f es ps).
Qed.

Lemma ids_stay_distinct_witness :
  NoDup (map id (run SingleFile []
                   [AddRound 1000; AddPlayer 1001; RemovePlayer "1000";
                    AddPlayer 1002])).
Proof.
  apply (ids_stay_distinct SingleFile
           [AddRound 1000; AddPlayer 1001; RemovePlayer "1000"; AddPlayer 1002] []).
  - constructor.
  - simpl. repeat constructor; simpl; lia.
  - intros t _ [].
Defined.

(** ** The ranking under edits *)

Lemma sort_insert_head (x : Player) (l : list Player) :
  (forall y, In y l -> total y <= total x) ->
  JS.sort_insert compareTotals x l = x :: l.
Proof.
  destruct l as [|y l]; intros H; [reflexivity|].
  cbn [JS.sort_insert]. unfold compareTotals.
  destruct (Z.leb_spec (total y - total x) 0) as [_|Hgt]; [reflexivity|].
  specialize (H y (or_introl eq_refl)). lia.
Qed.

Lemma sorted_head_bound (x : Player) (l : list Player) :
  StronglySorted (fun a b => total a >= total b) (x :: l) ->
  forall y, In y l -> total y <= total x.
Proof.
  intros Hs y Hy. apply StronglySorted_inv in Hs as [_ Hall].
  rewrite Forall_forall in Hall. specialize (Hall y Hy). lia.
Qed.

Lemma Array_sort_sorted_id (l : list Player) :
  StronglySorted (fun a b => total a >= total b) l ->
  JS.Array_sort compareTotals l = l.
Proof.
  induction l as [|x l IH]; intros Hs; [reflexivity|].
  cbn [JS.Array_sort fold_right].
  change (fold_right (JS.sort_insert compareTotals) [] l)
    with (JS.Array_sort compareTotals l).
  rewrite IH by (now apply StronglySorted_inv in Hs).
  apply sort_insert_head. now apply sorted_head_bound.
Qed.

(** X11.  Ranking a ranking changes nothing, and a ledger whose totals never
    increase from one player to the next is its own ranking. *)
Theorem ranking_idempotent (ps : list Player) :
  sortedPlayers (sortedPlayers ps) = sortedPlayers ps /\
  (StronglySorted (fun a b => total a >= total b) ps -> sortedPlayers ps = ps).
Proof.
  split.
  - apply Array_sort_sorted_id, sortedPlayers_sorted.
  - apply Array_sort_sorted_id.
Qed.

Lemma ranking_idempotent_witness :
  sortedPlayers [mkPlayer "1" "Ann" [Some 5]; mkPlayer "2" "Bob" [Some 5];
                 mkPlayer "3" "Cy" [None]]
  = [mkPlayer "1" "Ann" [Some 5]; mkPlayer "2" "Bob" [Some 5];
     mkPlayer "3" "Cy" [None]].
Proof.
  apply (proj2 (ranking_idempotent
                  [mkPlayer "1" "Ann" [Some 5]; mkPlayer "2" "Bob" [Some 5];
                   mkPlayer "3" "Cy" [None]])).
  repeat constructor; simpl; unfold total; simpl; lia.
Defined.

Lemma sort_insert_map (g : Player -> Player) (x : Player) (l : list Player) :
  (forall p, total (g p) = total p) ->
  JS.sort_insert compareTotals (g x) (map g l)
  = map g (JS.sort_insert compareTotals x l).
Proof.
  intros Hg. induction l as [|y l IH]; [reflexivity|].
  cbn [map JS.sort_insert]. unfold compareTotals at 1 3. rewrite !Hg.
  destruct (total y - total x <=? 0); [reflexivity|].
  cbn [map]. now rewrite IH.
Qed.

Lemma sortedPlayers_map (g : Player -> Player) (ps : list Player) :
  (forall p, total (g p) = total p) ->
  sortedPlayers (map g ps) = map g (sortedPlayers ps).
Proof.
  intros Hg. unfold sortedPlayers.
  induction ps as [|p ps IH]; [reflexivity|].
  cbn [map JS.Array_sort fold_right].
  change (fold_right (JS.sort_insert compareTotals) [] (map g ps))
    with (JS.Array_sort compareTotals (map g ps)).
  rewrite IH. now apply sort_insert_map.
Qed.

(** X12.  Renaming a player changes no total and does not move anyone in the
    ranking: the ranking of the renamed ledger is the renamed ranking. *)
Theorem rename_keeps_ranking (i newName : string) (ps : list Player) :
  map total (handleNameChange i newName ps) = map total ps /\
  sortedPlayers (handleNameChange i newName ps)
  = handleNameChange i newName (sortedPlayers ps).
Proof.
  assert (Hg : forall p,
             total (if (id p =? i)%string then set_name p newName else p) = total p).
  { intros p. now destruct (String.eqb (id p) i). }
  split.
  - unfold handleNameChange. rewrite map_map. apply map_ext. exact Hg.
  - unfold handleNameChange. now apply sortedPlayers_map.
Qed.

Lemma sort_insert_filter (g : Player -> bool) (x : Player) (l : list Player) :
  StronglySorted (fun a b => total a >= total b) l ->
  filter g (JS.sort_insert compareTotals x l)
  = if g x then JS.sort_insert compareTotals x (filter g l) else filter g l.
Proof.
  induction l as [|y l IH]; intros Hs.
  - cbn [JS.sort_insert filter]. now destruct (g x).
  - pose proof (sorted_head_bound y l Hs) as Hy.
    apply StronglySorted_inv in Hs as [Hs _]. specialize (IH Hs).
    cbn [JS.sort_insert]. unfold compareTotals at 1.
    destruct (Z.leb_spec (total y - total x) 0) as [Hle|Hgt].
    + cbn [filter]. destruct (g x); [|reflexivity].
      symmetry. apply sort_insert_head.
      intros z Hz.
      assert (Hz' : In z (y :: l)).
      { destruct (g y); [|right; now apply filter_In in Hz].
        destruct Hz as [<-|Hz]; [now left | right; now apply filter_In in Hz]. }
      destruct Hz' as [<-|Hz']; [lia|]. specialize (Hy z Hz'). lia.
    + cbn [filter]. rewrite IH. destruct (g y), (g x); try reflexivity.
      cbn [JS.sort_insert].
      destruct (Z.leb_spec (compareTotals x y) 0) as [H'|H'];
        [unfold compareTotals in H'; lia | reflexivity].
Qed.

Lemma sortedPlayers_filter (g : Player -> bool) (ps : list Player) :
  sortedPlayers (filter g ps) = filter g (sortedPlayers ps).
Proof.
  induction ps as [|p ps IH]; [reflexivity|].
  unfold sortedPlayers in *. cbn [filter JS.Array_sort fold_right].
  change (fold_right (JS.sort_insert compareTotals) [] ps)
    with (JS.Array_sort compareTotals ps).
  rewrite sort_insert_filter by apply sortedPlayers_sorted.
  fold (sortedPlayers ps). unfold sortedPlayers. rewrite <- IH.
  now destruct (g p).
Qed.

(** X13.  Removing a player does not reorder the others: the ranking of the
    ledger without the player is the ranking without the player. *)
Theorem removePlayer_keeps_ranking (i : string) (ps : list Player) :
  sortedPlayers (handleRemovePlayer i ps)
  = handleRemovePlayer i (sortedPlayers ps).
Proof.
  apply sortedPlayers_filter.
Qed.

(** ** The highest total *)

Lemma sortedPlayers_nonempty (ps : list Player) :
  ps <> [] -> exists r rows, sortedPlayers ps = r :: rows.
Proof.
  intros Hne. pose proof (Array_sort_perm Player compareTotals ps) as Hperm.
  fold (sortedPlayers ps) in Hperm.
  destruct (sortedPlayers ps) as [|r rows]; [|now exists r, rows].
  apply Permutation_sym, Permutation_nil in Hperm. contradiction.
Qed.

Lemma first_row_max (ps : list Player) (r : Player) (rows : list Player) :
  sortedPlayers ps = r :: rows ->
  In r ps /\ (forall q, In q ps -> total q <= total r).
Proof.
  intros E. pose proof (Array_sort_perm Player compareTotals ps) as Hperm.
  fold (sortedPlayers ps) in Hperm. pose proof (sortedPlayers_sorted ps) as Hs.
  rewrite E in Hperm, Hs. split.
  - apply (Permutation_in _ (Permutation_sym Hperm)). now left.
  - intros q Hq. apply (Permutation_in _ Hperm) in Hq as [<-|Hq]; [lia|].
    now apply (sorted_head_bound r rows).
Qed.

(** X14.  The statistics view takes the total of the first ranked player as
    the highest total and the modular table takes the maximum of all totals:
    on a ledger with players the two agree, no player has more, and some
    player has exactly that.  Without players the first is 100 and the second
    is -1. *)
Theorem highest_total_agrees (ps : list Player) :
  (ps <> [] ->
     maxTotal ps = highestScore (sortedPlayers ps) /\
     (forall q, In q ps -> total q <= maxTotal ps) /\
     (exists q, In q ps /\ total q = maxTotal ps)) /\
  (ps = [] -> maxTotal ps = 100 /\ highestScore (sortedPlayers ps) = -1).
Proof.
  split; [|intros ->; split; reflexivity].
  intros Hne. destruct (sortedPlayers_nonempty ps Hne) as (r & rows & E).
  destruct (first_row_max ps r rows E) as [Hr Hmax].
  unfold maxTotal. rewrite E. split; [|split; [exact Hmax | now exists r]].
  destruct (highestScore_max (r :: rows)) as [Hup (q & Hq & Eq)]; [discriminate|].
  apply Z.le_antisymm; [apply Hup; now left|].
  rewrite <- Eq. apply Hmax.
  pose proof (Array_sort_perm Player compareTotals ps) as Hperm.
  fold (sortedPlayers ps) in Hperm. rewrite E in Hperm.
  now apply (Permutation_in _ (Permutation_sym Hperm)).
Qed.

Lemma highest_total_agrees_witness :
  maxTotal [mkPlayer "1" "Ann" [Some 5; Some 3; None];
            mkPlayer "2" "Bob" [Some 1; Some 9; Some 2]]
  = highestScore (sortedPlayers [mkPlayer "1" "Ann" [Some 5; Some 3; None];
                                 mkPlayer "2" "Bob" [Some 1; Some 9; Some 2]]).
Proof.
  apply (proj1 (highest_total_agrees
                  [mkPlayer "1" "Ann" [Some 5; Some 3; None];
                   mkPlayer "2" "Bob" [Some 1; Some 9; Some 2]])).
  discriminate.
Defined.

(** ** The two winner rules *)

Lemma NoDup_ids_sorted (ps : list Player) :
  NoDup (map id ps) -> NoDup (map id (sortedPlayers ps)).
Proof.
  intros Hnd. eapply Permutation_NoDup; [|exact Hnd].
  apply Permutation_map. apply (Array_sort_perm Player compareTotals ps).
Qed.

(** X15.  With pairwise distinct ids, a row flagged by the single-file rule
    is flagged by the modular rule as well, and on the first row of the
    ranking the two rules give the same flag. *)
Theorem winner_rules_agree (ps : list Player) (index : nat) (p : Player) :
  NoDup (map id ps) ->
  nth_error (sortedPlayers ps) index = Some p ->
  (isWinner SingleFile (sortedPlayers ps) index p = true ->
   isWinner Modular (sortedPlayers ps) index p = true) /\
  (index = 0%nat ->
   isWinner Modular (sortedPlayers ps) index p
   = isWinner SingleFile (sortedPlayers ps) index p).
Proof.
  intros Hnd Hrow.
  assert (Hfirst : index = 0%nat ->
                   forall q, In q (sortedPlayers ps) -> total q <= total p).
  { intros -> q Hq. destruct (sortedPlayers ps) as [|r rows] eqn:E; [discriminate|].
    injection Hrow as ->.
    destruct Hq as [<-|Hq]; [lia|].
    apply (sorted_head_bound p rows); [|exact Hq].
    rewrite <- E. apply sortedPlayers_sorted. }
  pose proof (isWinner_modular (sortedPlayers ps) index p
                (NoDup_ids_sorted ps Hnd) (nth_error_In _ _ Hrow)) as Hmod.
  assert (Hsingle : isWinner SingleFile (sortedPlayers ps) index p = true
                    <-> index = 0%nat /\ 0 < total p).
  { unfold isWinner. now rewrite andb_true_iff, Nat.eqb_eq, Z.ltb_lt. }
  split.
  - intros H. apply Hsingle in H as [H0 Hpos]. apply Hmod. auto.
  - intros H0. apply Bool.eq_true_iff_eq. rewrite Hmod, Hsingle.
    split; [intros [Hpos _]; auto | intros [_ Hpos]; auto].
Qed.

Lemma winner_rules_agree_witness :
  isWinner Modular
    (sortedPlayers [mkPlayer "1" "Ann" [Some 5]; mkPlayer "2" "Bob" [Some 5]])
    0 (mkPlayer "1" "Ann" [Some 5])
  = isWinner SingleFile
      (sortedPlayers [mkPlayer "1" "Ann" [Some 5]; mkPlayer "2" "Bob" [Some 5]])
      0 (mkPlayer "1" "Ann" [Some 5]).
Proof.
  apply (winner_rules_agree
           [mkPlayer "1" "Ann" [Some 5]; mkPlayer "2" "Bob" [Some 5]]
           0 (mkPlayer "1" "Ann" [Some 5])).
  - repeat constructor; simpl; intuition discriminate.
  - reflexivity.
  - reflexivity.
Defined.

(** X16.  Under either rule some row of the table is flagged exactly when
    some player has a positive total (for the modular rule, with pairwise
    distinct ids). *)
Theorem winner_exists (f : flavour) (ps : list Player) :
  (f = Modular -> NoDup (map id ps)) ->
  (exists index p, nth_error (sortedPlayers ps) index = Some p /\
                   isWinner f (sortedPlayers ps) index p = true)
  <-> (exists q, In q ps /\ 0 < total q).
Proof.
  intros Hnd.
  pose proof (Array_sort_perm Player compareTotals ps) as Hperm.
  fold (sortedPlayers ps) in Hperm.
  split.
  - intros (index & p & Hrow & Hw). exists p. split.
    + apply (Permutation_in _ (Permutation_sym Hperm)).
      eapply nth_error_In. exact Hrow.
    + destruct f.
      * apply (isWinner_modular _ index p (NoDup_ids_sorted ps (Hnd eq_refl))
                 (nth_error_In _ _ Hrow)) in Hw. tauto.
      * unfold isWinner in Hw. apply andb_true_iff in Hw as [_ Hw].
        now apply Z.ltb_lt.
  - intros (q & Hq & Hpos).
    assert (Hne : ps <> []) by (intros ->; contradiction).
    destruct (sortedPlayers_nonempty ps Hne) as (r & rows & E).
    destruct (first_row_max ps r rows E) as [Hr Hmax].
    exists 0%nat, r. rewrite E. split; [reflexivity|]. rewrite <- E.
    specialize (Hmax q Hq). destruct f.
    + apply isWinner_modular.
      * exact (NoDup_ids_sorted ps (Hnd eq_refl)).
      * rewrite E. now left.
      * split; [lia|]. intros z Hz.
        apply (Permutation_in _ (Permutation_sym Hperm)) in Hz.
        now apply (proj2 (first_row_max ps r rows E)).
    + unfold isWinner. apply andb_true_iff. split; [reflexivity|].
      apply Z.ltb_lt. lia.
Qed.

Lemma winner_exists_witness :
  exists index p,
    nth_error (sortedPlayers [mkPlayer "1" "Ann" [None]; mkPlayer "2" "Bob" [Some 2]])
      index = Some p /\
    isWinner Modular
      (sortedPlayers [mkPlayer "1" "Ann" [None]; mkPlayer "2" "Bob" [Some 2]])
      index p = true.
Proof.
  apply (winner_exists Modular
           [mkPlayer "1" "Ann" [None]; mkPlayer "2" "Bob" [Some 2]]).
  - intros _. repeat constructor; simpl; intuition discriminate.
  - exists (mkPlayer "2" "Bob" [Some 2]). split; [right; now left | reflexivity].
Defined.

(** ** The points of the chart *)

Lemma chartPoints_pointsFrom (p : Player) :
  chartPoints p = mkPoint 0 0 :: pointsFrom 0 0 (scores p).
Proof.
  unfold chartPoints. now rewrite forEach_pushPoint.
Qed.

Lemma pointsFrom_length (l : list Score) (from : nat) (acc : Z) :
  List.length (pointsFrom from acc l)
  = List.length (filter (fun s => match s with Some _ => true | None => false end) l).
Proof.
  revert from acc. induction l as [|s l IH]; intros from acc; [reflexivity|].
  rewrite pointsFrom_cons. destruct s as [v|]; cbn [filter List.length]; now rewrite IH.
Qed.

Lemma pointsFrom_rounds (l : list Score) (from : nat) (acc : Z) (pt : Point) :
  In pt (pointsFrom from acc l) ->
  Z.of_nat from < round pt <= Z.of_nat (from + List.length l).
Proof.
  revert from acc. induction l as [|s l IH]; intros from acc Hpt; [contradiction|].
  rewrite pointsFrom_cons in Hpt. cbn [List.length].
  destruct s as [v|].
  - destruct Hpt as [<-|Hpt]; [cbn [round]; lia|]. apply IH in Hpt. lia.
  - apply IH in Hpt. lia.
Qed.

Lemma pointsFrom_increasing (l : list Score) (from : nat) (acc : Z) :
  increasingRounds (pointsFrom from acc l).
Proof.
  unfold increasingRounds.
  revert from acc. induction l as [|s l IH]; intros from acc; [constructor|].
  rewrite pointsFrom_cons. destruct s as [v|]; [|apply IH].
  constructor; [apply IH|]. apply Forall_forall. intros pt Hpt.
  apply pointsFrom_rounds in Hpt. cbn [round]. lia.
Qed.

Lemma last_cons_default {A} (l : list A) (a d : A) : last (a :: l) d = last l a.
Proof.
  revert a d. induction l as [|b l IH]; intros a d; [reflexivity|].
  change (last (a :: b :: l) d) with (last (b :: l) d).
  now rewrite (IH b d), (IH b a).
Qed.

Lemma pointsFrom_last (l : list Score) (from : nat) (acc : Z) (start : Point) :
  score start = acc ->
  score (last (pointsFrom from acc l) start) = acc + sumZ (presentScores l).
Proof.
  revert from acc start. induction l as [|s l IH]; intros from acc start Hstart.
  - cbn. lia.
  - rewrite pointsFrom_cons. destruct s as [v|].
    + rewrite last_cons_default, (IH (S from) (acc + v)) by reflexivity.
      simpl. lia.
    + rewrite (IH (S from) acc start Hstart). simpl. lia.
Qed.

Lemma chartPoints_facts (p : Player) :
  List.length (chartPoints p) = S (roundsPlayed p) /\
  (List.length (chartPoints p) <= S (List.length (scores p)))%nat /\
  hd_error (chartPoints p) = Some (mkPoint 0 0) /\
  increasingRounds (chartPoints p) /\
  (forall pt, In pt (chartPoints p) ->
              0 <= round pt <= Z.of_nat (List.length (scores p))).
Proof.
  rewrite chartPoints_pointsFrom. unfold roundsPlayed.
  cbn [List.length hd_error]. rewrite pointsFrom_length.
  repeat split.
  - apply le_n_S, filter_length_le.
  - constructor; [apply pointsFrom_increasing|].
    apply Forall_forall. intros pt Hpt. apply pointsFrom_rounds in Hpt.
    cbn [round]. lia.
  - destruct H as [<-|H]; [cbn [round]; lia|]. apply pointsFrom_rounds in H. lia.
  - destruct H as [<-|H]; [cbn [round]; lia|]. apply pointsFrom_rounds in H. lia.
Qed.

(** X17.  A player's line has one point more than the player has present
    scores, so at most one more than slots; it starts at round 0, its rounds
    increase strictly, and none exceeds the number of slots. *)
Theorem chartPoints_shape (p : Player) :
  List.length (chartPoints p) = S (roundsPlayed p) /\
  (List.length (chartPoints p) <= S (List.length (scores p)))%nat /\
  hd_error (chartPoints p) = Some (mkPoint 0 0) /\
  increasingRounds (chartPoints p) /\
  (forall pt, In pt (chartPoints p) ->
              0 <= round pt <= Z.of_nat (List.length (scores p))).
Proof.
  exact (chartPoints_facts p).
Qed.

Lemma chartPoints_shape_witness :
  0 <= round (mkPoint 3 8)
  <= Z.of_nat (List.length (scores (mkPlayer "1" "Ann" [Some 5; None; Some 3]))).
Proof.
  apply (chartPoints_shape (mkPlayer "1" "Ann" [Some 5; None; Some 3])).
  right. right. left. reflexivity.
Defined.

(** X18.  A player's line ends at the player's total. *)
Theorem chartPoints_end_at_total (p : Player) :
  score (last (chartPoints p) (mkPoint 0 0)) = total p.
Proof.
  rewrite chartPoints_pointsFrom, total_sum, last_cons_default.
  now rewrite (pointsFrom_last (scores p) 0 0 (mkPoint 0 0) eq_refl).
Qed.

(** ** The scales of the chart *)

Lemma combine_seq_snd {A} (l : list A) (from : nat) :
  map snd (combine (seq from (List.length l)) l) = l.
Proof.
  revert from. induction l as [|x l IH]; intros from; [reflexivity|].
  cbn [List.length seq combine map snd]. now rewrite IH.
Qed.

Lemma allPoints_flat (ps : list Player) : allPoints ps = flat_map chartPoints ps.
Proof.
  unfold allPoints, chartData.
  rewrite !flat_map_concat_map, map_map. cbn [points].
  rewrite <- (map_map snd chartPoints), combine_seq_snd. reflexivity.
Qed.

Lemma Math_min_lower (xs : list Z) (x : Z) :
  Math_min x xs <= x /\ Forall (fun y => Math_min x xs <= y) xs.
Proof.
  unfold Math_min. revert x.
  induction xs as [|y xs IH]; intros x; simpl.
  - split; [lia | constructor].
  - destruct (IH (Z.min x y)) as [H1 H2]. split; [lia|].
    constructor; [lia | exact H2].
Qed.

(** X19.  The chart has scales exactly when it is given players.  Its score
    axis always reaches from 0 or below to 10 or above, so it spans at least
    10, and every point lies within the scales. *)
Theorem chartScales_bounds (ps : list Player) :
  (chartScales ps = None <-> ps = []) /\
  (forall maxRound minScore maxScore,
     chartScales ps = Some (maxRound, minScore, maxScore) ->
     minScore <= 0 /\ 10 <= maxScore /\ 10 <= maxScore - minScore /\
     forall pt, In pt (allPoints ps) ->
                0 <= round pt <= maxRound /\ minScore <= score pt <= maxScore).
Proof.
  unfold chartScales. split.
  - rewrite allPoints_flat. destruct ps as [|p ps'].
    + split; reflexivity.
    + cbn [flat_map]. rewrite chartPoints_pointsFrom. cbn [app map].
      split; discriminate.
  - intros maxRound minScore maxScore H.
    destruct (map round (allPoints ps)) as [|r rounds] eqn:Er; [discriminate|].
    injection H as <- <- <-.
    destruct (Math_min_lower (map score (allPoints ps)) 0) as [Hmin Hmins].
    destruct (Math_max_upper (map score (allPoints ps)) 10) as [Hmax Hmaxs].
    destruct (Math_max_upper rounds r) as [Hr Hrs].
    rewrite Forall_forall in Hmins, Hmaxs, Hrs.
    repeat split; try lia.
    + rewrite allPoints_flat in H. apply in_flat_map in H as (p & _ & Hpt).
      apply chartPoints_facts in Hpt. lia.
    + assert (Hin : In (round pt) (r :: rounds))
        by (rewrite <- Er; now apply in_map).
      destruct Hin as [<-|Hin]; [lia | now apply Hrs].
    + apply Hmins. now apply in_map.
    + apply Hmaxs. now apply in_map.
Qed.

Lemma chartScales_bounds_witness :
  chartScales [] = None.
Proof.
  apply (proj1 (chartScales_bounds [])). reflexivity.
Defined.

Lemma combine_seq_nth {A} (l : list A) (from k : nat) (x : A) :
  nth_error l k = Some x ->
  nth_error (combine (seq from (List.length l)) l) k = Some ((from + k)%nat, x).
Proof.
  revert from k. induction l as [|y l IH]; intros from k Hk; [now destruct k|].
  destruct k as [|k]; cbn [List.length seq combine nth_error] in *.
  - injection Hk as ->. now rewrite Nat.add_0_r.
  - rewrite (IH (S from) k Hk). f_equal. f_equal. lia.
Qed.

(** X20.  Each player has a line, at the player's position and with the
    player's id; the line is drawn exactly when the player has a present
    score, and the round axis has a positive length exactly when some player
    has one. *)
Theorem chart_needs_scores (ps : list Player) :
  (forall k p, nth_error ps k = Some p ->
     exists l, nth_error (chartData ps) k = Some l /\ lineId l = id p /\
               (lineDrawn l = true <-> roundsPlayed p <> 0%nat)) /\
  (forall maxRound minScore maxScore,
     chartScales ps = Some (maxRound, minScore, maxScore) ->
     0 < maxRound <-> exists p, In p ps /\ roundsPlayed p <> 0%nat).
Proof.
  split.
  - intros k p Hk. eexists. split.
    + unfold chartData. rewrite nth_error_map, (combine_seq_nth ps 0 k p Hk).
      reflexivity.
    + split; [reflexivity|]. unfold lineDrawn. cbn [points snd].
      rewrite negb_true_iff, Nat.ltb_ge.
      rewrite (proj1 (chartPoints_facts p)). lia.
  - intros maxRound minScore maxScore H. unfold chartScales in H.
    destruct (map round (allPoints ps)) as [|r rounds] eqn:Er; [discriminate|].
    injection H as <- _ _.
    destruct (Math_max_upper rounds r) as [Hr Hrs]. rewrite Forall_forall in Hrs.
    pose proof (Math_max_attained rounds r) as Hatt. rewrite <- Er in Hatt.
    split.
    + intros Hpos. apply in_map_iff in Hatt as (pt & Ept & Hpt).
      rewrite allPoints_flat in Hpt. apply in_flat_map in Hpt as (p & Hp & Hpt).
      exists p. split; [exact Hp|].
      rewrite chartPoints_pointsFrom in Hpt.
      destruct Hpt as [<-|Hpt]; [cbn [round] in Ept; lia|].
      unfold roundsPlayed. rewrite <- (pointsFrom_length (scores p) 0 0).
      destruct (pointsFrom 0 0 (scores p)); [contradiction | discriminate].
    + intros (p & Hp & Hplayed).
      unfold roundsPlayed in Hplayed.
      rewrite <- (pointsFrom_length (scores p) 0 0) in Hplayed.
      destruct (pointsFrom 0 0 (scores p)) as [|pt pts] eqn:E; [contradiction|].
      assert (Hpt : In pt (pointsFrom 0 0 (scores p))) by (rewrite E; now left).
      assert (Hall : In pt (allPoints ps)).
      { rewrite allPoints_flat. apply in_flat_map. exists p. split; [exact Hp|].
        rewrite chartPoints_pointsFrom. now right. }
      apply pointsFrom_rounds in Hpt.
      assert (Hin : In (round pt) (r :: rounds))
        by (rewrite <- Er; now apply in_map).
      destruct Hin as [Hin|Hin]; [lia|]. specialize (Hrs _ Hin). lia.
Qed.

Lemma chart_needs_scores_witness :
  0 < 3 <-> exists p, In p [mkPlayer "1" "Ann" [Some 5; None; Some 3]]
                      /\ roundsPlayed p <> 0%nat.
Proof.
  apply (proj2 (chart_needs_scores
                  [mkPlayer "1" "Ann" [Some 5; None; Some 3]]) 3 0 10).
  reflexivity.
Defined.

(** ** The bars of the statistics view *)

Lemma percent_value (m t : Z) :
  0 < m ->
  ((inject_Z t / inject_Z m) * inject_Z 100 == (t * 100) # Z.to_pos m)%Q.
Proof.
  intros Hm. destruct m as [|pm|pm]; try lia.
  unfold Qeq, Qdiv, Qmult, Qinv, inject_Z. simpl. lia.
Qed.

(** X21.  In the statistics view no bar is wider than 100 percent, the bar
    of a player with the highest total is exactly 100 percent wide when that
    total is positive, and every bar has width 0 when it is not.  (The
    division is taken exactly.) *)
Theorem percent_bounds (ps : list Player) (p : Player) :
  In p ps ->
  (percent ps p <= 100)%Q /\
  (0 < maxTotal ps -> total p = maxTotal ps -> (percent ps p == 100)%Q) /\
  (maxTotal ps <= 0 -> (percent ps p == 0)%Q) /\
  (0 <= total p -> (0 <= percent ps p)%Q).
Proof.
  intros Hp.
  assert (Hne : ps <> []) by (intros ->; contradiction).
  destruct (sortedPlayers_nonempty ps Hne) as (r & rows & E).
  destruct (first_row_max ps r rows E) as [_ Hmax].
  assert (Hle : total p <= maxTotal ps).
  { unfold maxTotal. rewrite E. now apply Hmax. }
  unfold percent. destruct (Z.ltb_spec 0 (maxTotal ps)) as [Hpos|Hnon].
  - rewrite (percent_value _ (total p) Hpos).
    destruct (maxTotal ps) as [|pm|pm] eqn:Em; try lia.
    unfold Qle, Qeq. cbn [Qnum Qden Z.to_pos].
    repeat split; intros; lia.
  - repeat split; intros; try reflexivity; try lia.
    + unfold Qle. simpl. lia.
    + unfold Qle. simpl. lia.
Qed.

Lemma percent_bounds_witness :
  Qeq (percent [mkPlayer "1" "Ann" [Some 5; Some 3; None];
                mkPlayer "2" "Bob" [Some 1; Some 9; Some 2]]
         (mkPlayer "2" "Bob" [Some 1; Some 9; Some 2]))
      100%Q.
Proof.
  apply (percent_bounds [mkPlayer "1" "Ann" [Some 5; Some 3; None];
                         mkPlayer "2" "Bob" [Some 1; Some 9; Some 2]]
           (mkPlayer "2" "Bob" [Some 1; Some 9; Some 2])).
  - right. now left.
  - reflexivity.
  - reflexivity.
Defined.

(** ** The spreadsheet *)

Lemma excelHeaders_length (rounds : nat) :
  List.length (excelHeaders rounds) = (rounds + 2)%nat.
Proof.
  unfold excelHeaders. cbn [List.length].
  rewrite length_app, length_map, length_seq. simpl. lia.
Qed.

Lemma excelCells_length (p : Player) :
  List.length (excelCells p) = (List.length (scores p) + 2)%nat.
Proof.
  unfold excelCells. cbn [List.length].
  rewrite length_app, length_map. cbn [List.length]. unfold Score. lia.
Qed.

(** X22.  The export writes a file exactly when the ledger has players and
    the spreadsheet library is present, and then it writes the sheet under
    the file name.  Without players nothing happens; with players but
    without the library the single-file flavour alerts and the modular
    flavour fails with a reference error, and nothing is written.  The sheet
    has one row per player under the header row, and when the ledger keeps
    the round-count invariant every row has the width of the header: the
    round count plus two. *)
Theorem worksheet_shape (f : flavour) (xlsxDefined : bool) (ps : list Player)
  (title : string) (date monthIndex fullYear : Z) :
  ((exists fileName sheet,
      handleDownloadExcel f xlsxDefined ps title date monthIndex fullYear
      = Written fileName sheet)
   <-> ps <> [] /\ xlsxDefined = true) /\
  (ps <> [] -> xlsxDefined = true ->
     handleDownloadExcel f xlsxDefined ps title date monthIndex fullYear
     = Written (excelFileName f title date monthIndex fullYear) (worksheetData ps)) /\
  (ps = [] ->
     handleDownloadExcel f xlsxDefined ps title date monthIndex fullYear
     = NothingToExport) /\
  (ps <> [] -> xlsxDefined = false ->
     handleDownloadExcel f xlsxDefined ps title date monthIndex fullYear
     = match f with Modular => ReferenceError | SingleFile => LibraryAlert end) /\
  List.length (worksheetData ps) = S (List.length ps) /\
  (aligned ps ->
   forall row, In row (worksheetData ps) ->
               List.length row = (numRounds ps + 2)%nat).
Proof.
  split; [|split; [|split; [|split; [|split]]]].
  - unfold handleDownloadExcel. destruct ps as [|p ps']; cbn [List.length Nat.eqb].
    + split; [intros (n & sh & H); discriminate | intros [H _]; congruence].
    + destruct xlsxDefined.
      * split; [intros _; split; [discriminate | reflexivity]|].
        intros _. eexists. eexists. reflexivity.
      * split; [|intros [_ H]; discriminate].
        intros (n & sh & H). destruct f; discriminate.
  - intros Hne ->. unfold handleDownloadExcel.
    destruct ps as [|p ps']; [congruence | reflexivity].
  - intros ->. reflexivity.
  - intros Hne ->. unfold handleDownloadExcel.
    destruct ps as [|p ps']; [congruence|]. now destruct f.
  - unfold worksheetData. cbn [List.length]. rewrite length_map.
    f_equal. symmetry. apply Permutation_length.
    apply (Array_sort_perm Player compareTotals ps).
  - intros Hps row [<-|Hrow].
    + rewrite length_map. apply excelHeaders_length.
    + apply in_map_iff in Hrow as (p & <- & Hp).
      rewrite excelCells_length. f_equal. apply Hps.
      apply (Permutation_in _ (Permutation_sym
                                 (Array_sort_perm Player compareTotals ps))).
      exact Hp.
Qed.

Lemma worksheet_shape_witness :
  handleDownloadExcel Modular false [mkPlayer "1" "Ann" [Some 5; None]]
    "Friday" 1 0 2026 = ReferenceError /\
  List.length (excelCells (mkPlayer "1" "Ann" [Some 5; None])) = 4%nat.
Proof.
  split.
  - apply (proj1 (proj2 (proj2 (proj2 (worksheet_shape Modular false
             [mkPlayer "1" "Ann" [Some 5; None]] "Friday" 1 0 2026))))).
    + discriminate.
    + reflexivity.
  - apply (proj2 (proj2 (proj2 (proj2 (proj2 (worksheet_shape Modular true
             [mkPlayer "1" "Ann" [Some 5; None];
              mkPlayer "2" "Bob" [None; Some 1]] "" 1 0 2026)))))).
    + intros p [<-|[<-|[]]]; reflexivity.
    + right. left. reflexivity.
Defined.

Lemma allChars_append (g : ascii -> bool) (s1 s2 : string) :
  allChars g (s1 ++ s2)%string = allChars g s1 && allChars g s2.
Proof.
  induction s1 as [|c s1 IH]; [reflexivity|].
  cbn [String.append allChars]. now rewrite IH, andb_assoc.
Qed.

Lemma safeTitle_char (c : ascii) :
  isFileNameChar (toLowerCaseChar (if isAlphaNumeric c then c else "_"%char)) = true /\
  toLowerCaseChar
    (if isAlphaNumeric (toLowerCaseChar (if isAlphaNumeric c then c else "_"%char))
     then toLowerCaseChar (if isAlphaNumeric c then c else "_"%char)
     else "_"%char)
  = toLowerCaseChar (if isAlphaNumeric c then c else "_"%char).
Proof.
  destruct c as [[] [] [] [] [] [] [] []]; vm_compute; split; reflexivity.
Qed.

Lemma digits_fileName (d : Decimal.uint) :
  allChars isFileNameChar (NilEmpty.string_of_uint d) = true.
Proof.
  induction d; cbn [NilEmpty.string_of_uint allChars]; [reflexivity | ..];
    rewrite IHd; reflexivity.
Qed.

Lemma toString_fileName (z : Z) : allChars isFileNameChar (JS.toString z) = true.
Proof.
  unfold JS.toString. destruct (Z.to_int z) as [d|d];
    cbn [NilEmpty.string_of_int allChars]; rewrite digits_fileName; reflexivity.
Qed.

Lemma padStart2_fileName (s : string) :
  allChars isFileNameChar s = true -> allChars isFileNameChar (padStart2 s) = true.
Proof.
  intros H. unfold padStart2.
  destruct (String.length s) as [|[|n]]; [reflexivity | | exact H].
  cbn [allChars]. now rewrite H.
Qed.

(** X23.  The title part of the file name has as many characters as the
    title, sanitizing it again changes nothing, and the whole name of the
    file the single-file flavour writes consists of small letters, digits,
    underscores, hyphens and dots only. *)
Theorem fileName_safe (title : string) (date monthIndex fullYear : Z) :
  String.length (safeTitle title) = String.length title /\
  safeTitle (safeTitle title) = safeTitle title /\
  allChars isFileNameChar
    (excelFileName SingleFile title date monthIndex fullYear) = true.
Proof.
  split; [|split].
  - unfold safeTitle. induction title as [|c t IH]; [reflexivity|].
    cbn [mapString String.length]. now rewrite IH.
  - unfold safeTitle. induction title as [|c t IH]; [reflexivity|].
    cbn [mapString]. rewrite IH. f_equal. apply safeTitle_char.
  - unfold excelFileName, dateString.
    rewrite !allChars_append.
    rewrite !padStart2_fileName by apply toString_fileName.
    rewrite toString_fileName.
    assert (Ht : allChars isFileNameChar (safeTitle title) = true).
    { unfold safeTitle. induction title as [|c t IH]; [reflexivity|].
      cbn [mapString allChars]. rewrite IH.
      now rewrite (proj1 (safeTitle_char c)). }
    rewrite Ht. reflexivity.
Qed.

(** ** Loading, and starting the application *)

Section LoadFacts.

Variable Text : Type.
Variable JSON_stringify : SavedData -> Text.
Variable JSON_parse : Text -> option SavedData.
Variable truthy : Text -> bool.

#[local] Abbreviation load' := (loadSavedData Text JSON_parse truthy).

(** X24.  Whatever the store holds, a record that [loadSavedData] returns is
    the one parsed from the store, is younger than the expiry window, and
    stays in the store.  Once a load has returned [null], every load after
    it returns [null] too, at any clock reading, as long as nothing is
    saved; and a second load at the same reading changes nothing more. *)
Theorem load_result (now : Z) (store : Storage Text) :
  (forall d, fst (load' now store) = Some d ->
     now - timestamp d < 36000000 /\
     snd (load' now store) = store /\
     exists saved, store = Some saved /\ JSON_parse saved = Some d) /\
  (fst (load' now store) = None ->
     forall later, fst (load' later (snd (load' now store))) = None) /\
  load' now (snd (load' now store)) = load' now store.
Proof.
  unfold loadSavedData. change EXPIRY_TIME with 36000000.
  destruct store as [saved|]; [|repeat split; intros; discriminate].
  destruct (truthy saved) eqn:Et;
    [|repeat split; intros; try discriminate; cbn [fst snd]; now rewrite Et].
  destruct (JSON_parse saved) as [parsed|] eqn:Ep;
    [|repeat split; intros; try discriminate; cbn [fst snd]; now rewrite Et, Ep].
  destruct (Z.ltb_spec (now - timestamp parsed) 36000000) as [Hlt|Hge];
    cbn [fst snd].
  - split; [|split].
    + intros d [= <-]. repeat split; [exact Hlt|]. now exists saved.
    + discriminate.
    + rewrite Et, Ep.
      destruct (Z.ltb_spec (now - timestamp parsed) 36000000); [reflexivity | lia].
  - split; [|split]; [discriminate | reflexivity | reflexivity].
Qed.

End LoadFacts.

Lemma load_result_witness :
  fst (loadSavedData SavedData Some (fun _ => true) 5
         (snd (loadSavedData SavedData Some (fun _ => true) 36001000
                 (Some (mkSavedData [] "Friday" 1000))))) = None.
Proof.
  apply (proj1 (proj2 (load_result SavedData Some (fun _ => true) 36001000
                         (Some (mkSavedData [] "Friday" 1000))))).
  reflexivity.
Defined.

Section StartFacts.

Variable Text : Type.
Variable JSON_stringify : SavedData -> Text.
Variable JSON_parse : Text -> option SavedData.
Variable truthy : Text -> bool.

#[local] Abbreviation load'' := (loadSavedData Text JSON_parse truthy).

Hypothesis parse_stringify : forall d, JSON_parse (JSON_stringify d) = Some d.
Hypothesis stringify_truthy : forall d, truthy (JSON_stringify d) = true.

#[local] Abbreviation save' := (saveEffect Text JSON_stringify).
#[local] Abbreviation start := (startApp Text JSON_stringify JSON_parse truthy).

(** X25.  Starting the application inside the expiry window of a saved
    record restores its players, and its title unless that is empty, which
    becomes "Score Keeper"; started at or past the window it begins empty.
    Either way the first render saves the state again with the new clock
    reading, so the window of what is stored counts from the last start. *)
Theorem start_restores_and_renews (saved_at now later next : Z)
  (ps : list Player) (title : string) (store : Storage Text) :
  (now - saved_at < 36000000 ->
     fst (start now later (save' saved_at ps title store))
     = (ps, if (title =? "")%string then "Score Keeper" else title)) /\
  (36000000 <= now - saved_at ->
     fst (start now later (save' saved_at ps title store)) = ([], "Score Keeper")) /\
  (next - later < 36000000 ->
     fst (load'' next (snd (start now later (save' saved_at ps title store))))
     = Some (mkSavedData
               (fst (fst (start now later (save' saved_at ps title store))))
               (snd (fst (start now later (save' saved_at ps title store))))
               later)).
Proof.
  unfold startApp. rewrite (load_save Text JSON_stringify JSON_parse truthy
                              parse_stringify stringify_truthy).
  change EXPIRY_TIME with 36000000.
  split; [|split].
  - intros H. destruct (Z.ltb_spec (now - saved_at) 36000000); [reflexivity | lia].
  - intros H. destruct (Z.ltb_spec (now - saved_at) 36000000); [lia | reflexivity].
  - intros H. cbn [fst snd].
    rewrite (load_save Text JSON_stringify JSON_parse truthy
               parse_stringify stringify_truthy).
    change EXPIRY_TIME with 36000000.
    destruct (Z.ltb_spec (next - later) 36000000); [reflexivity | lia].
Qed.

End StartFacts.

Lemma start_restores_and_renews_witness :
  fst (loadSavedData SavedData Some (fun _ => true) 60000000
         (snd (startApp SavedData (fun d => d) Some (fun _ => true)
                 30000000 30000005
                 (saveEffect SavedData (fun d => d) 1000
                    [mkPlayer "1" "Ann" [Some 5]] "" None))))
  = Some (mkSavedData [mkPlayer "1" "Ann" [Some 5]] "Score Keeper" 30000005).
Proof.
  apply (proj2 (proj2 (start_restores_and_renews SavedData (fun d => d) Some
                         (fun _ => true) (fun d => eq_refl) (fun d => eq_refl)
                         1000 30000000 30000005 60000000
                         [mkPlayer "1" "Ann" [Some 5]] "" None))).
  lia.
Defined.

(** ** How the handlers move the round count *)

(** X26.  Adding a player never changes the round count, not even on the
    empty ledger, where the new player gets the five default slots.  On a
    ledger with players, removing one of its rounds lowers the count by one,
    while a rename or a score edit at one of its rounds keeps it.  On the
    empty ledger the count stays 5 whatever round is removed. *)
Theorem round_count_moves (now : Z) (roundIndex : Z) (i newName : string)
  (s : Score) (ps : list Player) :
  numRounds (handleAddPlayer now ps) = numRounds ps /\
  numRounds (handleNameChange i newName ps) = numRounds ps /\
  numRounds (handleRemoveRound roundIndex []) = 5%nat /\
  (0 <= roundIndex < Z.of_nat (numRounds ps) ->
     numRounds (handleScoreChange i roundIndex s ps) = numRounds ps /\
     (ps <> [] ->
      numRounds (handleRemoveRound roundIndex ps) = pred (numRounds ps))).
Proof.
  split; [|split; [|split; [reflexivity|]]].
  - destruct ps as [|p0 ps']; reflexivity.
  - destruct ps as [|p0 ps']; [reflexivity|]. cbn [handleNameChange map numRounds].
    now destruct (String.eqb (id p0) i).
  - intros Hrange. destruct ps as [|p0 ps']; [split; [reflexivity | congruence]|].
    cbn [numRounds] in Hrange. split.
    + cbn [handleScoreChange map numRounds].
      destruct (String.eqb (id p0) i); [|reflexivity].
      cbn [set_scores scores]. rewrite Array_set_in_range by exact Hrange.
      rewrite length_app. cbn [List.length].
      rewrite length_firstn, length_skipn, Nat.min_l by lia. lia.
    + intros _. cbn [handleRemoveRound map numRounds set_scores scores].
      unfold JS.filteri. rewrite filter_from_length. unfold slotsAfterRemove.
      destruct (Z.leb_spec (Z.of_nat 0) roundIndex); [|lia].
      destruct (Z.ltb_spec roundIndex (Z.of_nat (0 + List.length (scores p0))));
        [reflexivity | lia].
Qed.

Lemma round_count_moves_witness :
  numRounds (handleRemoveRound 1 [mkPlayer "1" "Ann" [Some 5; Some 3; Some 2]])
  = 2%nat.
Proof.
  apply (round_count_moves 0 1 "" "" None
           [mkPlayer "1" "Ann" [Some 5; Some 3; Some 2]]).
  - simpl. lia.
  - discriminate.
Defined.
